(** * Social-deduction voting simulator: embedding of [src/simulation.py]

    A shallow embedding of the round / match / sweep engine together with
    the properties of its two output tables (one row per vote, one row per
    elimination).

    Conventions.
    - Python [int]s are [Z]; [len] results are [nat] and are injected with
      [Z.of_nat] where the source stores them in a row.
    - [Set[int]] is [gset Z]; lists are lists; a [Counter] is an association
      list in first-insertion order (the order [Counter.items()] iterates).
    - The NumPy generator is a shared mutable object.  It is modelled as an
      arbitrary infinite sequence of raw draws with a cursor, one draw per
      call of [rng.choice]; making it from a negative seed raises; the two output
      lists and the generator form the store [World] threaded through every
      call, and a raised [ValueError] leaves the store as it was at the
      raise.
    - [SimParams.alpha] is a float that no function reads; it is left out. *)

From stdpp Require Import gmap sets list strings.
From Stdlib Require Import ZArith Lia.

#[local] Set Warnings "-clear-no-such-hyp".

Open Scope Z_scope.

(** ** Outcomes and the state-and-exception monad *)

(** The places where the code can raise; all are Python [ValueError]s. *)
Inductive ValueError : Type :=
| NegativeSeed  (* np.random.default_rng on a negative seed *)
| EmptyChoice   (* rng.choice on an empty sequence *)
| EmptyMax      (* max() of an empty sequence *)
| NotInList.    (* list.remove(x) with x absent *)

Inductive outcome (A : Type) : Type :=
| Ok (a : A)
| Raise (e : ValueError)
| OutOfFuel.
Arguments Ok {A} a.
Arguments Raise {A} e.
Arguments OutOfFuel {A}.

Definition M (S A : Type) : Type := S → outcome A * S.

Definition ret {S A} (a : A) : M S A := λ s, (Ok a, s).

Definition raise {S A} (e : ValueError) : M S A := λ s, (Raise e, s).

Definition bind {S A B} (m : M S A) (k : A → M S B) : M S B :=
  λ s, match m s with
       | (Ok a, s') => k a s'
       | (Raise e, s') => (Raise e, s')
       | (OutOfFuel, s') => (OutOfFuel, s')
       end.

Notation "'let*' x ':=' m 'in' k" := (bind m (λ x, k))
  (at level 10, x pattern, m at level 100, k at level 200).

(** [for x in xs: acc = body x acc] with the loop-carried locals in [acc]. *)
Fixpoint for_in {S A B} (xs : list A) (body : A → B → M S B) (acc : B) : M S B :=
  match xs with
  | [] => ret acc
  | x :: xs' => let* acc' := body x acc in for_in xs' body acc'
  end.

(** [range(a, b)] *)
Definition py_range (a b : Z) : list Z :=
  map (λ i : nat, a + Z.of_nat i) (seq 0 (Z.to_nat (b - a))).

(** ** Data model *)

Record SimParams : Type := {
  P_values : list Z;
  R_values : list Z;
  n_matches : Z;
}.

Record VoteContext : Type := {
  P : Z;
  R : Z;
  match_id : Z;
  round_id : Z;
  step_id : Z;
  impostors : gset Z;
}.

(** [update_ctx(ctx, step_id=s)]: the only field the code ever changes. *)
Definition update_ctx (ctx : VoteContext) (s : Z) : VoteContext :=
  {| P := P ctx; R := R ctx; match_id := match_id ctx;
     round_id := round_id ctx; step_id := s; impostors := impostors ctx |}.

Record VoteRow : Type := {
  v_P : Z;
  v_R : Z;
  v_match : Z;
  v_round : Z;
  v_step : Z;
  v_voter : Z;
  v_target : Z;
  v_voter_role : string;
  v_target_role : string;
}.

Record ResultRow : Type := {
  g_P : Z;
  g_R : Z;
  g_match : Z;
  g_round : Z;
  g_step : Z;
  g_eliminated : Z;
  g_eliminated_role : string;
  g_max_votes : Z;
  g_tie_size : Z;
  g_impostors_wins : bool;
}.

(** ** The random generator *)

Record Generator : Type := {
  draws : nat → nat;
  consumed : nat;
}.

(** [rng.choice(a)]: one element of [a], one draw consumed; raises on an
    empty [a] without touching the generator. *)
Definition rng_choice (a : list Z) : M Generator Z :=
  λ g, match a !! (draws g (consumed g) `mod` length a)%nat with
       | Some x => (Ok x, {| draws := draws g; consumed := S (consumed g) |})
       | None => (Raise EmptyChoice, g)
       end.

(** ** The store *)

Record World : Type := {
  rng : Generator;
  votes : list VoteRow;
  game_results : list ResultRow;
}.

Definition with_rng {A} (m : M Generator A) : M World A :=
  λ w, let '(r, g) := m (rng w) in
       (r, {| rng := g; votes := votes w; game_results := game_results w |}).

(** ** Pure helpers *)

Definition choose_targets (players_alive : list Z) : M Generator (list Z) :=
  for_in players_alive
    (λ voter targets,
       let possible_targets := filter (λ p, p ≠ voter) players_alive in
       let* target := rng_choice possible_targets in
       ret (targets ++ [target]))
    [].

(** [Counter]: [count[x] += 1], a new key going last. *)
Fixpoint counter_add (count : list (Z * Z)) (x : Z) : list (Z * Z) :=
  match count with
  | [] => [(x, 1)]
  | (k, v) :: rest =>
      if decide (k = x) then (k, v + 1) :: rest else (k, v) :: counter_add rest x
  end.

Definition Counter (xs : list Z) : list (Z * Z) := foldl counter_add [] xs.

(** [max(values)] *)
Definition py_max (values : list Z) : outcome Z :=
  match values with
  | [] => Raise EmptyMax
  | v :: rest => Ok (foldl Z.max v rest)
  end.

Definition pick_eliminated_from_targets (targets : list Z)
  : M Generator (Z * Z * list Z) :=
  let count_votes := Counter targets in
  λ g, match py_max (count_votes.*2) with
       | Ok max_votes =>
           let most_voted := (filter (λ pv, pv.2 = max_votes) count_votes).*1 in
           (let* eliminated := rng_choice most_voted in
            ret (eliminated, max_votes, most_voted)) g
       | Raise e => (Raise e, g)
       | OutOfFuel => (OutOfFuel, g)
       end.

Definition impostors_win (players_alive : list Z) (impostors : gset Z) : bool :=
  let alive_set : gset Z := list_to_set players_alive in
  let n_imp := size (alive_set ∩ impostors) in
  let n_civ := size (alive_set ∖ impostors) in
  bool_decide (n_civ ≤ n_imp)%nat.

Definition role_of (p : Z) (impostors : gset Z) : string :=
  if decide (p ∈ impostors) then "impostor"%string else "civil"%string.

Definition vote_row (ctx : VoteContext) (vt : Z * Z) : VoteRow :=
  {| v_P := P ctx; v_R := R ctx; v_match := match_id ctx;
     v_round := round_id ctx; v_step := step_id ctx;
     v_voter := vt.1; v_target := vt.2;
     v_voter_role := role_of vt.1 (impostors ctx);
     v_target_role := role_of vt.2 (impostors ctx) |}.

Definition append_votes_rows (ctx : VoteContext) (players_alive targets : list Z)
  : M World unit :=
  λ w, (Ok tt,
        {| rng := rng w;
           votes := votes w ++ map (vote_row ctx) (zip players_alive targets);
           game_results := game_results w |}).

Definition result_row (ctx : VoteContext) (eliminated max_votes tie_size : Z)
    (impostors_wins_flag : bool) : ResultRow :=
  {| g_P := P ctx; g_R := R ctx; g_match := match_id ctx;
     g_round := round_id ctx; g_step := step_id ctx;
     g_eliminated := eliminated;
     g_eliminated_role := role_of eliminated (impostors ctx);
     g_max_votes := max_votes; g_tie_size := tie_size;
     g_impostors_wins := impostors_wins_flag |}.

Definition append_game_result_row (ctx : VoteContext)
    (eliminated max_votes tie_size : Z) (impostors_wins_flag : bool)
  : M World unit :=
  λ w, (Ok tt,
        {| rng := rng w; votes := votes w;
           game_results := game_results w ++
             [result_row ctx eliminated max_votes tie_size impostors_wins_flag] |}).

(** [l.remove(x)]: drops the first occurrence, raises when there is none. *)
Fixpoint list_remove (x : Z) (l : list Z) : option (list Z) :=
  match l with
  | [] => None
  | y :: l' => if decide (y = x) then Some l' else (y ::.) <$> list_remove x l'
  end.

Definition remove_or_raise {S} (x : Z) (l : list Z) : M S (list Z) :=
  match list_remove x l with
  | Some l' => ret l'
  | None => raise NotInList
  end.

(** ** Core simulation *)

(** The [while] condition of [simulate_round]. *)
Definition round_guard (base_ctx : VoteContext) (players_alive : list Z) : bool :=
  bool_decide (0 < size ((list_to_set players_alive : gset Z) ∩ impostors base_ctx))%nat
  && negb (impostors_win players_alive (impostors base_ctx)).

(** One pass through the [while] body; the locals [players_alive] and
    [step_id] are the loop state. *)
Definition round_body (base_ctx : VoteContext) (st : list Z * Z)
  : M World (list Z * Z) :=
  let players_alive := st.1 in
  let step_id := st.2 + 1 in
  let ctx := update_ctx base_ctx step_id in
  let* targets := with_rng (choose_targets players_alive) in
  let* _ := append_votes_rows ctx players_alive targets in
  let* (eliminated, max_votes, most_voted) :=
    with_rng (pick_eliminated_from_targets targets) in
  let* players_alive := remove_or_raise eliminated players_alive in
  let imp_win_flag := impostors_win players_alive (impostors ctx) in
  let* _ := append_game_result_row ctx eliminated max_votes
              (Z.of_nat (length most_voted)) imp_win_flag in
  ret (players_alive, step_id).

Fixpoint round_loop (fuel : nat) (base_ctx : VoteContext) (st : list Z * Z)
  : M World unit :=
  if round_guard base_ctx st.1 then
    match fuel with
    | O => λ w, (OutOfFuel, w)
    | S fuel' => let* st' := round_body base_ctx st in round_loop fuel' base_ctx st'
    end
  else ret tt.

(** Every pass removes one element of [players_alive], so its length bounds
    the number of passes ([round_loop_fuel] below). *)
Definition simulate_round (base_ctx : VoteContext) (players : list Z)
  : M World unit :=
  round_loop (length players) base_ctx (players, 0).

Definition simulate_match (P R match_id : Z) : M World unit :=
  let players := py_range 0 P in
  for_in (py_range 1 (R + 1))
    (λ round_id (_ : unit),
       let* impostor := with_rng (rng_choice players) in
       let impostors : gset Z := {[ impostor ]} in
       let base_ctx := {| P := P; R := R; match_id := match_id;
                          round_id := round_id; step_id := 0;
                          impostors := impostors |} in
       simulate_round base_ctx players)
    tt.

(** The three nested [for] loops of [run_complete_simulation]; the local
    counter [match_id] is the loop-carried value. *)
Definition sweep (params : SimParams) : M World Z :=
  for_in (P_values params)
    (λ P match_id,
       for_in (R_values params)
         (λ R match_id,
            for_in (py_range 0 (n_matches params))
              (λ _ match_id,
                 let match_id := match_id + 1 in
                 let* _ := simulate_match P R match_id in
                 ret match_id)
              match_id)
         match_id)
    0.

Section Driver.

(** [np.random.default_rng] on a seed it accepts: any function from
    non-negative seeds to generators. *)
Variable default_rng : Z → Generator.

(** [np.random.default_rng(seed)], the first statement of the function,
    raises on a negative seed, before anything else runs.  The two data
    frames are the two row lists; a raise returns neither. *)
Definition run_complete_simulation (params : SimParams) (seed : Z)
  : outcome (list VoteRow * list ResultRow) :=
  if decide (seed < 0) then Raise NegativeSeed else
  let w0 := {| rng := default_rng seed; votes := []; game_results := [] |} in
  match sweep params w0 with
  | (Ok _, w) => Ok (votes w, game_results w)
  | (Raise e, _) => Raise e
  | (OutOfFuel, _) => OutOfFuel
  end.

End Driver.

(** Two generators for the examples: one that always draws [n], one whose
    [k]-th draw is [k]. *)
Definition const_rng (n : nat) : Generator := {| draws := λ _, n; consumed := 0 |}.
Definition seq_rng : Generator := {| draws := λ k, k; consumed := 0 |}.

(** The store a run starts from: a fresh generator and two empty tables. *)
Definition world0 (g : Generator) : World :=
  {| rng := g; votes := []; game_results := [] |}.

(** * Vocabulary of the properties *)

(** The generator after one more draw. *)
Definition advance (g : Generator) : Generator :=
  {| draws := draws g; consumed := S (consumed g) |}.

(** The body of the voting loop of [choose_targets]. *)
Definition vote_body (players_alive : list Z) (voter : Z) (targets : list Z)
  : M Generator (list Z) :=
  let possible_targets := filter (λ p, p ≠ voter) players_alive in
  let* target := rng_choice possible_targets in
  ret (targets ++ [target]).

(** The comprehension building [most_voted] in
    [pick_eliminated_from_targets]. *)
Definition most_voted_of (targets : list Z) (max_votes : Z) : list Z :=
  (filter (λ pv : Z * Z, pv.2 = max_votes) (Counter targets)).*1.

(** [round_steps base_ctx c0 n c]: the loop started in configuration [c0]
    has made [n] passes, each entered with the [while] condition true and
    left without a raise, and is now in [c]. *)
Inductive round_steps (base_ctx : VoteContext) (c0 : (list Z * Z) * World)
  : nat → (list Z * Z) * World → Prop :=
| steps_O : round_steps base_ctx c0 O c0
| steps_S n st w st' w' :
    round_steps base_ctx c0 n (st, w) →
    round_guard base_ctx st.1 = true →
    round_body base_ctx st w = (Ok st', w') →
    round_steps base_ctx c0 (S n) (st', w').

(** The (P, R) cell of every match, in the order the three nested loops
    visit them. *)
Definition sweep_cells (params : SimParams) : list (Z * Z) :=
  P ← P_values params; R ← R_values params; _ ← py_range 0 (n_matches params);
  [(P, R)].

(** The body of the innermost loop of [run_complete_simulation], on a cell. *)
Definition match_body (cell : Z * Z) (match_id : Z) : M World Z :=
  let match_id := match_id + 1 in
  let* _ := simulate_match cell.1 cell.2 match_id in
  ret match_id.

(** The store with another generator state and the same two tables. *)
Definition set_rng (w : World) (g : Generator) : World :=
  {| rng := g; votes := votes w; game_results := game_results w |}.

(** Cells whose match cannot enter a voting pass: no round at all, or a pool
    of one or two players. *)
Definition quiet_cell (cell : Z * Z) : Prop :=
  cell.2 < 1 ∨ cell.1 = 1 ∨ cell.1 = 2.

(** The win condition in the spec's words, counted directly on the alive
    pool, for comparison with [impostors_win]: the count of alive impostors
    is greater than or equal to the count of alive non-impostors. *)
Definition count_alive_impostors (pool : list Z) (imps : gset Z) : nat :=
  length (filter (λ p, p ∈ imps) pool).

Definition count_alive_civilians (pool : list Z) (imps : gset Z) : nat :=
  length (filter (λ p, p ∉ imps) pool).

Definition spec_win_condition (pool : list Z) (imps : gset Z) : Prop :=
  (count_alive_civilians pool imps ≤ count_alive_impostors pool imps)%nat.

(** The (match, round, step) identifiers of a row. *)
Definition vote_ids (row : VoteRow) : Z * Z * Z :=
  (v_match row, v_round row, v_step row).

Definition result_ids (row : ResultRow) : Z * Z * Z :=
  (g_match row, g_round row, g_step row).

(** The shape of a round is the list of the numbers of players alive at the
    start of each of its passes; of a match, the list of its rounds' shapes;
    of a run, the list of its matches' shapes.  Numbering matches, rounds
    and passes from 1 in list order, pass [j] of a round contributes
    [mult a] copies of its identifiers, [a] being its number of voters:
    [mult] is the identity for the vote table and constantly 1 for the
    result table. *)
Definition round_block (mult : nat → nat) (m r : Z) (sizes : list nat)
  : list (Z * Z * Z) :=
  mjoin (imap (λ j a, replicate (mult a) (m, r, Z.of_nat j + 1)) sizes).

Definition match_block (mult : nat → nat) (m : Z) (rounds : list (list nat))
  : list (Z * Z * Z) :=
  mjoin (imap (λ j sizes, round_block mult m (Z.of_nat j + 1) sizes) rounds).

Definition sweep_block (mult : nat → nat) (shape : list (list (list nat)))
  : list (Z * Z * Z) :=
  mjoin (imap (λ j rounds, match_block mult (Z.of_nat j + 1) rounds) shape).

(** A round on [P] players: pass [j] (from 0) has [P - j] voters; there are
    between 1 and [P - 2] passes when [P] is 3 or more, and none otherwise. *)
Definition round_shape (P : Z) (sizes : list nat) : Prop :=
  (∀ j a, sizes !! j = Some a → Z.of_nat a = P - Z.of_nat j)
  ∧ (3 ≤ P → 1 ≤ Z.of_nat (length sizes) ≤ P - 2)
  ∧ (P < 3 → sizes = []).

(** A match of cell (P, R): [R] rounds on [P] players. *)
Definition match_shape (cell : Z * Z) (rounds : list (list nat)) : Prop :=
  length rounds = Z.to_nat cell.2 ∧ Forall (round_shape cell.1) rounds.

(** Concrete inputs for the examples. *)
Definition ex_ctx (P i : Z) : VoteContext :=
  {| P := P; R := 1; match_id := 1; round_id := 1; step_id := 0;
     impostors := {[ i ]} |}.

Definition ex_params : SimParams :=
  {| P_values := [4; 3]; R_values := [2]; n_matches := 2 |}.

Definition two_player_params : SimParams :=
  {| P_values := [2]; R_values := [1]; n_matches := 1 |}.


Definition skipping_params : SimParams :=
  {| P_values := [2; 3]; R_values := [1]; n_matches := 1 |}.

(** The number of votes [p] gets in [targets]. *)
Definition votes_for (p : Z) (targets : list Z) : Z :=
  Z.of_nat (length (filter (λ t, t = p) targets)).

(** [count[k]] on a [Counter]: 0 for a key that is not there. *)
Fixpoint counter_get (count : list (Z * Z)) (k : Z) : Z :=
  match count with
  | [] => 0
  | (k', v) :: rest => if decide (k' = k) then v else counter_get rest k
  end.

(** Cells on which the first impostor draw finds an empty pool. *)
Definition empty_pool_cell (cell : Z * Z) : Prop := cell.1 ≤ 0 ∧ 1 ≤ cell.2.

(** The context [simulate_match] builds for round [r] of match [m] on cell
    (P, R) once it has drawn impostor [i]. *)
Definition round_ctx (P R m r i : Z) : VoteContext :=
  {| P := P; R := R; match_id := m; round_id := r; step_id := 0;
     impostors := {[ i ]} |}.

(** A result row that eliminates a civilian and leaves the round open. *)
Definition open_row (i : Z) (row : ResultRow) : Prop :=
  g_eliminated row ≠ i
  ∧ g_eliminated_role row = "civil"%string
  ∧ g_impostors_wins row = false.

(** What every vote row of a run satisfies: the row belongs to match
    [v_match], whose cell gives its [P] and [R]; round, step, voter and
    target are in range; the impostor's own vote goes to a civilian. *)
Definition valid_vote_row (cells : list (Z * Z)) (row : VoteRow) : Prop :=
  1 ≤ v_match row
  ∧ cells !! Z.to_nat (v_match row - 1) = Some (v_P row, v_R row)
  ∧ 1 ≤ v_round row ≤ v_R row
  ∧ 1 ≤ v_step row ≤ v_P row - 2
  ∧ 0 ≤ v_voter row < v_P row
  ∧ 0 ≤ v_target row < v_P row
  ∧ (v_voter_role row = "impostor"%string → v_target_role row = "civil"%string).

(** What every result row of a run satisfies.  At step [s] of a round on
    [P] players [P - s + 1] players vote, none for themselves. *)
Definition valid_result_row (cells : list (Z * Z)) (row : ResultRow) : Prop :=
  1 ≤ g_match row
  ∧ cells !! Z.to_nat (g_match row - 1) = Some (g_P row, g_R row)
  ∧ 1 ≤ g_round row ≤ g_R row
  ∧ 1 ≤ g_step row ≤ g_P row - 2
  ∧ 0 ≤ g_eliminated row < g_P row
  ∧ 1 ≤ g_max_votes row ≤ g_P row - g_step row
  ∧ 1 ≤ g_tie_size row
  ∧ g_tie_size row * g_max_votes row ≤ g_P row - g_step row + 1
  ∧ (g_eliminated_role row = "impostor"%string → g_impostors_wins row = false)
  ∧ (g_impostors_wins row = true → g_step row = g_P row - 2).

(** [w'] has the rows of [w], in place, and maybe more after them. *)
Definition extends (w w' : World) : Prop :=
  votes w `prefix_of` votes w' ∧ game_results w `prefix_of` game_results w'.

(** [m] only ever appends to the two tables, however it ends. *)
Definition grows {A} (m : M World A) : Prop := ∀ w, extends w (m w).2.

(** * Properties *)

(** ** The monad *)

Lemma bind_Ok {S A B} (m : M S A) (k : A → M S B) s b s' :
  bind m k s = (Ok b, s') ↔ ∃ a s1, m s = (Ok a, s1) ∧ k a s1 = (Ok b, s').
Proof.
  unfold bind. split.
  - destruct (m s) as [[a| |] s1]; intros H; try discriminate. eauto.
  - intros (a & s1 & -> & H). exact H.
Qed.

Lemma with_rng_Ok {A} (m : M Generator A) w a w' :
  with_rng m w = (Ok a, w') ↔
  ∃ g, m (rng w) = (Ok a, g) ∧
       w' = {| rng := g; votes := votes w; game_results := game_results w |}.
Proof.
  unfold with_rng. destruct (m (rng w)) as [r g]. split.
  - intros [= -> <-]. eauto.
  - intros (g' & [= -> ->] & ->). reflexivity.
Qed.

(** A [for] loop that returns normally ran its body on every element in
    turn, each time from the store the previous pass left. *)
Lemma for_in_Ok_inv {S A B} (I : list A → B → S → Prop)
    (body : A → B → M S B) xs acc s r s' :
  for_in xs body acc s = (Ok r, s') →
  I [] acc s →
  (∀ done x rest b s0 b1 s1,
      xs = done ++ x :: rest →
      I done b s0 → body x b s0 = (Ok b1, s1) → I (done ++ [x]) b1 s1) →
  I xs r s'.
Proof.
  intros Hrun H0 Hstep.
  enough (∀ done todo a0 s0,
            xs = done ++ todo → for_in todo body a0 s0 = (Ok r, s') →
            I done a0 s0 → I xs r s') as Hgen
    by exact (Hgen [] xs acc s eq_refl Hrun H0).
  clear acc s Hrun H0.
  intros done todo. revert done.
  induction todo as [|x todo IH]; intros done a0 s0 Hxs Hrun HI; simpl in Hrun.
  - injection Hrun as <- <-. by rewrite Hxs, app_nil_r.
  - apply bind_Ok in Hrun as (b1 & s1 & Hb & Hrest).
    apply (IH (done ++ [x]) b1 s1); [by rewrite <- (assoc_L (++))|done|].
    by eapply Hstep.
Qed.

(** ** [rng.choice] *)

Lemma rng_choice_Ok a g x g' :
  rng_choice a g = (Ok x, g') → x ∈ a ∧ g' = advance g.
Proof.
  unfold rng_choice.
  destruct (a !! _) as [y|] eqn:E; intros [= <- <-].
  split; [by eapply list_elem_of_lookup_2 | done].
Qed.

Lemma rng_choice_nonempty a g :
  a ≠ [] → ∃ x, rng_choice a g = (Ok x, advance g) ∧ x ∈ a.
Proof.
  intros Ha. unfold rng_choice.
  destruct (lookup_lt_is_Some_2 a (draws g (consumed g) `mod` length a)%nat)
    as [x Hx].
  { apply Nat.mod_upper_bound. by destruct a. }
  rewrite Hx. eexists; split; [done|]. by eapply list_elem_of_lookup_2.
Qed.

Lemma rng_choice_empty g : rng_choice [] g = (Raise EmptyChoice, g).
Proof. done. Qed.

Lemma rng_choice_singleton x g : rng_choice [x] g = (Ok x, advance g).
Proof. unfold rng_choice. change (length [x]) with 1%nat. by rewrite Nat.mod_1_r. Qed.

(** ** [choose_targets] *)

(** Every voter gets one target, in voter order; the target is alive and is
    not the voter. *)
Lemma choose_targets_Ok players_alive g targets g' :
  choose_targets players_alive g = (Ok targets, g') →
  Forall2 (λ voter target, target ∈ players_alive ∧ target ≠ voter)
          players_alive targets.
Proof.
  intros Hrun.
  apply (for_in_Ok_inv
           (λ done targets _,
              Forall2 (λ voter target, target ∈ players_alive ∧ target ≠ voter)
                      done targets)) in Hrun; [done|constructor|].
  intros done x rest b s0 b1 s1 _ HI Hb.
  apply bind_Ok in Hb as (t & s2 & Ht & [= <- <-]).
  apply rng_choice_Ok in Ht as [Ht _].
  apply list_elem_of_filter in Ht as [Hne Hin].
  apply Forall2_app; [done|]. by repeat constructor.
Qed.

Lemma choose_targets_length players_alive g targets g' :
  choose_targets players_alive g = (Ok targets, g') →
  length targets = length players_alive.
Proof. intros H%choose_targets_Ok. symmetry. by eapply Forall2_length. Qed.

(** With two distinct players alive, every voter has a candidate. *)
Lemma for_in_vote_total players_alive voters acc g :
  (∀ v, v ∈ voters → ∃ p, p ∈ players_alive ∧ p ≠ v) →
  ∃ targets g', for_in voters (vote_body players_alive) acc g = (Ok targets, g').
Proof.
  revert acc g. induction voters as [|v voters IH]; intros acc g Hc; simpl.
  - by eexists _, _.
  - destruct (Hc v) as (p & Hp & Hne); [left|].
    destruct (rng_choice_nonempty (filter (λ p, p ≠ v) players_alive) g)
      as (t & Ht & _).
    { intros Hnil. assert (p ∈ filter (λ p, p ≠ v) players_alive) as Hin
        by by apply list_elem_of_filter.
      rewrite Hnil in Hin. by apply not_elem_of_nil in Hin. }
    unfold bind at 1, vote_body at 1, bind. rewrite Ht. simpl.
    apply IH. intros v' Hv'. apply Hc. by right.
Qed.

Lemma choose_targets_total players_alive g :
  NoDup players_alive → (2 ≤ length players_alive)%nat →
  ∃ targets g', choose_targets players_alive g = (Ok targets, g').
Proof.
  intros Hnd Hlen. apply for_in_vote_total. intros v Hv.
  destruct players_alive as [|a [|b l]]; simpl in Hlen; try lia.
  apply NoDup_cons in Hnd as [Hab _].
  destruct (decide (v = a)) as [->|Hne].
  - exists b. split; [right; left|]. intros ->. apply Hab. by left.
  - exists a. split; [by left|done].
Qed.

(** ** [Counter], [max] and the plurality pick *)

Lemma counter_add_keys count x k :
  k ∈ (counter_add count x).*1 ↔ k ∈ count.*1 ∨ k = x.
Proof.
  induction count as [|[k' v] rest IH]; simpl.
  - rewrite list_elem_of_singleton. set_solver.
  - destruct (decide (k' = x)) as [->|Hne]; simpl.
    + rewrite !elem_of_cons. naive_solver.
    + rewrite !elem_of_cons, IH. naive_solver.
Qed.

Lemma counter_add_positive count x :
  Forall (λ kv, 1 ≤ kv.2) count → Forall (λ kv, 1 ≤ kv.2) (counter_add count x).
Proof.
  induction 1 as [|[k v] rest Hv Hrest IH]; simpl.
  - by repeat constructor.
  - destruct (decide (k = x)); constructor; simpl in *; try done. lia.
Qed.

Lemma foldl_counter_add xs count :
  Forall (λ kv, 1 ≤ kv.2) count →
  Forall (λ kv, 1 ≤ kv.2) (foldl counter_add count xs)
  ∧ ∀ k, k ∈ (foldl counter_add count xs).*1 ↔ k ∈ count.*1 ∨ k ∈ xs.
Proof.
  revert count. induction xs as [|x xs IH]; intros count Hc; simpl.
  - split; [done|]. intros k. rewrite elem_of_nil. naive_solver.
  - destruct (IH (counter_add count x) (counter_add_positive _ _ Hc)) as [H1 H2].
    split; [done|]. intros k.
    rewrite H2, counter_add_keys, elem_of_cons. naive_solver.
Qed.

Lemma Counter_positive xs : Forall (λ kv, 1 ≤ kv.2) (Counter xs).
Proof. by apply foldl_counter_add. Qed.

Lemma Counter_keys xs k : k ∈ (Counter xs).*1 ↔ k ∈ xs.
Proof.
  unfold Counter. destruct (foldl_counter_add xs []) as [_ H]; [done|].
  rewrite H. simpl. rewrite elem_of_nil. naive_solver.
Qed.

Lemma foldl_max_in v rest :
  foldl Z.max v rest ∈ v :: rest ∧ Forall (λ x, x ≤ foldl Z.max v rest) (v :: rest).
Proof.
  revert v. induction rest as [|y rest IH]; intros v; simpl.
  - split; [by left|]. by repeat constructor.
  - destruct (IH (Z.max v y)) as [Hin Hle].
    apply Forall_cons in Hle as [Hm Hle].
    split.
    + apply elem_of_cons in Hin as [Heq|Hin].
      * rewrite Heq. destruct (Z.max_spec v y) as [[_ ->]|[_ ->]];
          [right; left|left].
      * by do 2 right.
    + repeat constructor; [lia|lia|done].
Qed.

Lemma py_max_Ok values m :
  py_max values = Ok m → m ∈ values ∧ Forall (λ x, x ≤ m) values.
Proof.
  destruct values as [|v rest]; [done|]. intros [= <-]. apply foldl_max_in.
Qed.

Lemma py_max_nonempty values : values ≠ [] → ∃ m, py_max values = Ok m.
Proof. destruct values; [done|]. by eexists. Qed.

Lemma most_voted_incl targets max_votes p :
  p ∈ most_voted_of targets max_votes → p ∈ targets.
Proof.
  unfold most_voted_of. intros ([k v] & -> & Hin%list_elem_of_filter)%list_elem_of_fmap.
  apply Counter_keys. apply list_elem_of_fmap. exists (k, v). split; [done|]. tauto.
Qed.

(** A successful pick: the eliminated player is one of the most voted, who
    are all targets; the top count is at least one vote and is the count of
    every most-voted player; one draw was consumed. *)
Lemma pick_eliminated_Ok targets g eliminated max_votes most_voted g' :
  pick_eliminated_from_targets targets g
    = (Ok (eliminated, max_votes, most_voted), g') →
  py_max ((Counter targets).*2) = Ok max_votes
  ∧ most_voted = most_voted_of targets max_votes
  ∧ eliminated ∈ most_voted
  ∧ eliminated ∈ targets
  ∧ 1 ≤ max_votes
  ∧ (1 ≤ length most_voted)%nat
  ∧ g' = advance g.
Proof.
  unfold pick_eliminated_from_targets.
  destruct (py_max _) as [m| |] eqn:Hmax; try discriminate.
  intros (e & g1 & Hc & [= <- <- <- <-])%bind_Ok.
  apply rng_choice_Ok in Hc as [Hin ->].
  fold (most_voted_of targets m) in *.
  apply py_max_Ok in Hmax as [Hm _].
  apply list_elem_of_fmap in Hm as ([k v] & -> & Hkv). simpl in *.
  repeat split; try done.
  - by eapply most_voted_incl.
  - pose proof (Counter_positive targets) as Hpos.
    rewrite Forall_forall in Hpos. by apply (Hpos (k, v)).
  - destruct (most_voted_of targets v); [by apply elem_of_nil in Hin|simpl; lia].
Qed.

Lemma Counter_nonempty targets : targets ≠ [] → Counter targets ≠ [].
Proof.
  destruct targets as [|t ts]; [done|]. intros _ Hnil.
  assert (t ∈ (Counter (t :: ts)).*1) as Hin by (apply Counter_keys; left).
  rewrite Hnil in Hin. by apply elem_of_nil in Hin.
Qed.

Lemma pick_eliminated_total targets g :
  targets ≠ [] →
  ∃ eliminated max_votes most_voted,
    pick_eliminated_from_targets targets g
      = (Ok (eliminated, max_votes, most_voted), advance g).
Proof.
  intros Hne. unfold pick_eliminated_from_targets.
  destruct (py_max_nonempty ((Counter targets).*2)) as [m Hm].
  { intros Hnil%fmap_nil_inv. by apply Counter_nonempty in Hnil. }
  rewrite Hm. fold (most_voted_of targets m).
  destruct (rng_choice_nonempty (most_voted_of targets m) g) as (e & He & _).
  { apply py_max_Ok in Hm as [Hin _].
    apply list_elem_of_fmap in Hin as ([k v] & -> & Hkv).
    simpl. intros Hnil.
    assert (k ∈ most_voted_of targets v) as Hk.
    { apply list_elem_of_fmap. exists (k, v). split; [done|].
      by apply list_elem_of_filter. }
    rewrite Hnil in Hk. by apply elem_of_nil in Hk. }
  unfold bind. rewrite He. by eexists _, _, _.
Qed.

(** ** [list.remove] *)

Lemma list_remove_Some x l l' :
  list_remove x l = Some l' →
  x ∈ l ∧ length l = S (length l') ∧ (∀ y, y ∈ l' → y ∈ l)
  ∧ (NoDup l → NoDup l' ∧ ∀ y, y ∈ l' ↔ y ∈ l ∧ y ≠ x).
Proof.
  revert l'. induction l as [|y l IH]; intros l'; simpl; [done|].
  destruct (decide (y = x)) as [->|Hne].
  - intros [= ->]. split; [by left|]. split; [done|]. split; [by right|].
    intros [Hx Hnd]%NoDup_cons. split; [done|]. intros z.
    rewrite elem_of_cons. split; [|naive_solver].
    intros Hz. split; [by right|]. by intros ->.
  - destruct (list_remove x l) as [l1|] eqn:E; [|done]. intros [= <-].
    destruct (IH l1 eq_refl) as (Hin & Hlen & Hsub & Hnd).
    split; [by right|]. split; [simpl; lia|]. split.
    { intros z [->|Hz]%elem_of_cons; [left|right; auto]. }
    intros [Hy Hl]%NoDup_cons. destruct (Hnd Hl) as [Hnd1 Hiff]. split.
    + apply NoDup_cons. split; [|done]. intros Hy1. apply Hy. by apply Hsub.
    + intros z. rewrite !elem_of_cons, Hiff. naive_solver.
Qed.

Lemma list_remove_elem x l : x ∈ l → is_Some (list_remove x l).
Proof.
  induction l as [|y l IH]; simpl.
  - by intros ?%elem_of_nil.
  - destruct (decide (y = x)); [by eexists|].
    intros [->|Hin]%elem_of_cons; [done|].
    destruct (IH Hin) as [l' ->]. by eexists.
Qed.

(** ** The win condition with a single impostor *)

Lemma single_impostor_counts (players_alive : list Z) (i : Z) :
  NoDup players_alive →
  size ((list_to_set players_alive : gset Z) ∩ {[ i ]})
    = (if decide (i ∈ players_alive) then 1 else 0)%nat
  ∧ size ((list_to_set players_alive : gset Z) ∖ {[ i ]})
    = (length players_alive - (if decide (i ∈ players_alive) then 1 else 0))%nat.
Proof.
  intros Hnd.
  assert (size ((list_to_set players_alive : gset Z) ∩ {[ i ]})
          = (if decide (i ∈ players_alive) then 1 else 0)%nat) as Himp.
  { destruct (decide (i ∈ players_alive)) as [Hin|Hout].
    - replace ((list_to_set players_alive : gset Z) ∩ {[ i ]})
        with ({[ i ]} : gset Z) by set_solver.
      apply size_singleton.
    - replace ((list_to_set players_alive : gset Z) ∩ {[ i ]})
        with (∅ : gset Z) by set_solver.
      apply size_empty. }
  split; [done|].
  rewrite size_difference_alt, Himp. by rewrite size_list_to_set.
Qed.

Lemma impostors_win_single players_alive i :
  NoDup players_alive →
  impostors_win players_alive {[ i ]} = true ↔
  (i ∈ players_alive ∧ (length players_alive ≤ 2)%nat) ∨ players_alive = [].
Proof.
  intros Hnd. unfold impostors_win.
  destruct (single_impostor_counts players_alive i Hnd) as [-> ->].
  rewrite bool_decide_eq_true.
  destruct (decide (i ∈ players_alive)) as [Hin|Hout].
  - split; [intros; left; split; [done|lia]|].
    intros [[_ H]| ->]; [lia|simpl; lia].
  - split.
    + intros H. right. destruct players_alive; [done|simpl in H; lia].
    + intros [[H _]| ->]; [done|simpl; lia].
Qed.

Lemma round_guard_single base_ctx players_alive i :
  impostors base_ctx = {[ i ]} → NoDup players_alive →
  round_guard base_ctx players_alive = true ↔
  i ∈ players_alive ∧ (3 ≤ length players_alive)%nat.
Proof.
  intros Hi Hnd. unfold round_guard. rewrite Hi.
  rewrite andb_true_iff, negb_true_iff, bool_decide_eq_true.
  rewrite <- not_true_iff_false, (impostors_win_single _ _ Hnd).
  destruct (single_impostor_counts players_alive i Hnd) as [-> _].
  destruct (decide (i ∈ players_alive)) as [Hin|Hout].
  - split.
    + intros [_ Hn]. split; [done|].
      destruct (decide (3 ≤ length players_alive)%nat); [done|].
      exfalso. apply Hn. left. split; [done|lia].
    + intros [_ Hlen]. split; [lia|].
      intros [[_ H]| ->]; [lia|simpl in Hlen; lia].
  - split; [intros [H _]; lia|intros [H _]; done].
Qed.

(** On distinct players the two set sizes [impostors_win] compares are the
    numbers of impostors and of civilians in the list. *)
Lemma alive_set_counts (players_alive : list Z) (imps : gset Z) :
  NoDup players_alive →
  size ((list_to_set players_alive : gset Z) ∩ imps)
    = count_alive_impostors players_alive imps
  ∧ size ((list_to_set players_alive : gset Z) ∖ imps)
    = count_alive_civilians players_alive imps.
Proof.
  unfold count_alive_impostors, count_alive_civilians.
  induction 1 as [|x l Hx Hnd [IH1 IH2]].
  { simpl. split.
    - replace ((∅ : gset Z) ∩ imps) with (∅ : gset Z) by set_solver.
      apply size_empty.
    - replace ((∅ : gset Z) ∖ imps) with (∅ : gset Z) by set_solver.
      apply size_empty. }
  rewrite list_to_set_cons, !filter_cons.
  destruct (decide (x ∈ imps)) as [Hin|Hout].
  - rewrite decide_False by tauto. simpl. rewrite <- IH1, <- IH2. split.
    + replace (({[ x ]} ∪ list_to_set l) ∩ imps)
        with ({[ x ]} ∪ ((list_to_set l : gset Z) ∩ imps)) by set_solver.
      rewrite size_union, size_singleton; [done|]. set_solver.
    + f_equal. set_solver.
  - rewrite decide_True by done. simpl. rewrite <- IH1, <- IH2. split.
    + f_equal. set_solver.
    + replace (({[ x ]} ∪ list_to_set l) ∖ imps)
        with ({[ x ]} ∪ ((list_to_set l : gset Z) ∖ imps)) by set_solver.
      rewrite size_union, size_singleton; [done|]. set_solver.
Qed.

(** On distinct players [impostors_win] decides the win condition as the
    spec words it. *)
Lemma impostors_win_spec players_alive imps :
  NoDup players_alive →
  impostors_win players_alive imps = true
  ↔ spec_win_condition players_alive imps.
Proof.
  intros Hnd. unfold impostors_win, spec_win_condition.
  destruct (alive_set_counts players_alive imps Hnd) as [-> ->].
  apply bool_decide_eq_true.
Qed.

(** ** One pass of the round loop *)

(** What a pass that returns normally did, in the order the code does it. *)
Lemma round_body_Ok base_ctx players_alive step w st' w' :
  round_body base_ctx (players_alive, step) w = (Ok st', w') →
  ∃ targets g1 eliminated max_votes most_voted,
    choose_targets players_alive (rng w) = (Ok targets, g1)
    ∧ pick_eliminated_from_targets targets g1
        = (Ok (eliminated, max_votes, most_voted), rng w')
    ∧ list_remove eliminated players_alive = Some st'.1
    ∧ st'.2 = step + 1
    ∧ votes w' = votes w ++
        map (vote_row (update_ctx base_ctx (step + 1))) (zip players_alive targets)
    ∧ game_results w' = game_results w ++
        [result_row (update_ctx base_ctx (step + 1)) eliminated max_votes
           (Z.of_nat (length most_voted))
           (impostors_win st'.1 (impostors base_ctx))].
Proof.
  unfold round_body. simpl.
  intros (targets & w1 & (g1 & Hct & ->)%with_rng_Ok & H)%bind_Ok.
  apply bind_Ok in H as ([] & w2 & [= <-] & H).
  apply bind_Ok in H as ([[e mv] most] & w3 & (g2 & Hpick & ->)%with_rng_Ok & H).
  simpl in *.
  apply bind_Ok in H as (alive' & w4 & Hrm & H).
  unfold remove_or_raise in Hrm.
  destruct (list_remove e players_alive) as [l'|] eqn:Hl; [|done].
  injection Hrm as <- <-.
  apply bind_Ok in H as ([] & w5 & [= <-] & [= <- <-]).
  simpl. by eexists targets, g1, e, mv, most.
Qed.

(** A pass on two or more distinct players never raises. *)
Lemma round_body_total base_ctx players_alive step w :
  NoDup players_alive → (2 ≤ length players_alive)%nat →
  ∃ st' w', round_body base_ctx (players_alive, step) w = (Ok st', w').
Proof.
  intros Hnd Hlen.
  destruct (choose_targets_total players_alive (rng w) Hnd Hlen)
    as (targets & g1 & Hct).
  pose proof (choose_targets_length _ _ _ _ Hct) as Htl.
  destruct (pick_eliminated_total targets g1) as (e & mv & most & Hpick).
  { destruct targets; [simpl in Htl; lia|done]. }
  pose proof (pick_eliminated_Ok _ _ _ _ _ _ Hpick) as (_ & _ & _ & Hin & _).
  assert (e ∈ players_alive) as He.
  { apply choose_targets_Ok in Hct.
    apply list_elem_of_lookup_1 in Hin as [j Hj].
    destruct (Forall2_lookup_r _ _ _ _ _ Hct Hj) as (v & _ & Hv & _). done. }
  destruct (list_remove_elem _ _ He) as [l' Hl'].
  unfold round_body, bind, with_rng, append_votes_rows, remove_or_raise,
    append_game_result_row, ret. simpl.
  rewrite Hct. simpl. rewrite Hpick, Hl'. by eexists _, _.
Qed.

(** ** The round loop *)

Lemma round_steps_first base_ctx st w st1 w1 n c :
  round_guard base_ctx st.1 = true →
  round_body base_ctx st w = (Ok st1, w1) →
  round_steps base_ctx (st1, w1) n c →
  round_steps base_ctx (st, w) (S n) c.
Proof.
  intros Hg Hb Hs. induction Hs as [|n st2 w2 st3 w3 _ IH Hg' Hb'].
  - eapply steps_S; [apply steps_O|done..].
  - eapply steps_S; eauto.
Qed.

(** A loop that returns normally made some number of passes and stopped on a
    false condition. *)
Lemma round_loop_Ok fuel base_ctx st w w' :
  round_loop fuel base_ctx st w = (Ok tt, w') →
  ∃ n st', round_steps base_ctx (st, w) n (st', w')
           ∧ round_guard base_ctx st'.1 = false.
Proof.
  revert st w. induction fuel as [|fuel IH]; intros st w; simpl;
    destruct (round_guard base_ctx st.1) eqn:Hg.
  - done.
  - intros [= <-]. exists O, st. split; [constructor|done].
  - intros (st1 & w1 & Hb & Hl)%bind_Ok.
    destruct (IH _ _ Hl) as (n & st' & Hs & Hg').
    exists (S n), st'. split; [|done]. by eapply round_steps_first.
  - intros [= <-]. exists O, st. split; [constructor|done].
Qed.

(** The loop follows the passes: from a reachable configuration it ends as
    it does from the start. *)
Lemma round_loop_steps base_ctx st w n st' w' fuel :
  round_steps base_ctx (st, w) n (st', w') →
  round_loop (n + fuel) base_ctx st w = round_loop fuel base_ctx st' w'.
Proof.
  intros Hs. revert fuel.
  remember (st', w') as c eqn:Hc. revert st' w' Hc.
  induction Hs as [|n st2 w2 st3 w3 _ IH Hg Hb]; intros st' w' [= <- <-] fuel.
  - done.
  - replace (S n + fuel)%nat with (n + S fuel)%nat by lia.
    rewrite (IH _ _ eq_refl). simpl. rewrite Hg. unfold bind. by rewrite Hb.
Qed.

(** *** Raises are the only abnormal exits of a pass *)

Lemma rng_choice_fuel a g s : rng_choice a g ≠ (OutOfFuel, s).
Proof. unfold rng_choice. by destruct (a !! _). Qed.

Lemma for_in_fuel {S A B} (body : A → B → M S B) xs acc s s' :
  (∀ x b s0 s1, body x b s0 ≠ (OutOfFuel, s1)) →
  for_in xs body acc s ≠ (OutOfFuel, s').
Proof.
  intros Hb. revert acc s. induction xs as [|x xs IH]; intros acc s; simpl; [done|].
  unfold bind. destruct (body x acc s) as [[b| |] s1] eqn:E; [apply IH|done|].
  by apply Hb in E.
Qed.

Lemma choose_targets_fuel players_alive g s :
  choose_targets players_alive g ≠ (OutOfFuel, s).
Proof.
  apply for_in_fuel. intros x b s0 s1. unfold bind.
  destruct (rng_choice _ s0) as [[t| |] s2] eqn:E; [done|done|].
  by apply rng_choice_fuel in E.
Qed.

Lemma for_in_Raise {S A B} (Q : ValueError → Prop) (body : A → B → M S B)
    xs acc s e s' :
  (∀ x b s0 e0 s1, body x b s0 = (Raise e0, s1) → Q e0) →
  for_in xs body acc s = (Raise e, s') → Q e.
Proof.
  intros Hb. revert acc s. induction xs as [|x xs IH]; intros acc s; simpl; [done|].
  unfold bind. destruct (body x acc s) as [[b|e0|] s1] eqn:E.
  - apply IH.
  - intros [= <- <-]. by eapply Hb.
  - done.
Qed.

(** The only raise of the voting loop is the choice from an empty list. *)
Lemma choose_targets_Raise players_alive g e g' :
  choose_targets players_alive g = (Raise e, g') → e = EmptyChoice.
Proof.
  apply (for_in_Raise (λ e, e = EmptyChoice)). intros x b s0 e0 s1. unfold bind.
  destruct (rng_choice _ s0) as [[t|e1|] s2] eqn:E; [done| |done].
  intros [= <- <-]. unfold rng_choice in E. destruct (_ !! _); congruence.
Qed.

Lemma pick_eliminated_fuel targets g s :
  pick_eliminated_from_targets targets g ≠ (OutOfFuel, s).
Proof.
  unfold pick_eliminated_from_targets.
  destruct (py_max _) as [m| |] eqn:Hm; [|done|].
  - unfold bind. destruct (rng_choice _ g) as [[t| |] s2] eqn:E; [done|done|].
    by apply rng_choice_fuel in E.
  - unfold py_max in Hm. by destruct (_.*2).
Qed.

Lemma round_body_fuel base_ctx st w w' :
  round_body base_ctx st w ≠ (OutOfFuel, w').
Proof.
  unfold round_body, bind, with_rng, append_votes_rows, remove_or_raise,
    append_game_result_row, ret, raise. simpl.
  destruct (choose_targets st.1 (rng w)) as [[targets| |] g1] eqn:Hct;
    [|done|by apply choose_targets_fuel in Hct].
  simpl.
  destruct (pick_eliminated_from_targets targets g1) as [[[[e mv] most]| |] g2]
    eqn:Hp; [|done|by apply pick_eliminated_fuel in Hp].
  by destruct (list_remove e st.1).
Qed.

(** The [while] condition needs a living impostor, so a living player. *)
Lemma round_guard_nonempty base_ctx players_alive :
  round_guard base_ctx players_alive = true → players_alive ≠ [].
Proof.
  intros Hg ->. unfold round_guard in Hg. simpl in Hg.
  replace ((∅ : gset Z) ∩ impostors base_ctx) with (∅ : gset Z) in Hg
    by set_solver.
  by rewrite size_empty in Hg.
Qed.

(** The length of the alive list is fuel enough: whatever the context, the
    players and the store, the loop returns or raises, and more fuel changes
    nothing. *)
Lemma round_loop_fuel base_ctx fuel st w :
  (length st.1 ≤ fuel)%nat →
  (round_loop fuel base_ctx st w).1 ≠ OutOfFuel
  ∧ ∀ fuel', (length st.1 ≤ fuel')%nat →
             round_loop fuel' base_ctx st w = round_loop fuel base_ctx st w.
Proof.
  revert st w. induction fuel as [|fuel IH]; intros st w Hlen.
  - assert (round_guard base_ctx st.1 = false) as Hg.
    { destruct (round_guard base_ctx st.1) eqn:Hg; [|done].
      apply round_guard_nonempty in Hg. destruct st.1; [done|simpl in Hlen; lia]. }
    split; [simpl; by rewrite Hg|].
    intros fuel' _. destruct fuel'; simpl; by rewrite Hg.
  - simpl. destruct (round_guard base_ctx st.1) eqn:Hg.
    2:{ split; [done|]. intros fuel' _. destruct fuel'; simpl; by rewrite Hg. }
    unfold bind.
    destruct (round_body base_ctx st w) as [[st1| |] w1] eqn:Hb.
    + destruct st as [alive step].
      pose proof (round_body_Ok _ _ _ _ _ _ Hb) as (_ & _ & e & _ & _ & _ & _ & Hrm & _).
      apply list_remove_Some in Hrm as (_ & Hl & _). simpl in *.
      destruct (IH st1 w1) as [H1 H2]; [lia|]. split; [done|].
      intros [|fuel'] Hf; [lia|]. simpl. rewrite Hg. unfold bind. rewrite Hb.
      apply H2. lia.
    + split; [done|]. intros [|fuel'] Hf.
      * apply round_guard_nonempty in Hg. destruct st.1; [done|simpl in Hf; lia].
      * simpl. rewrite Hg. unfold bind. by rewrite Hb.
    + by apply round_body_fuel in Hb.
Qed.

Lemma simulate_round_fuel base_ctx players w :
  (simulate_round base_ctx players w).1 ≠ OutOfFuel
  ∧ ∀ fuel, (length players ≤ fuel)%nat →
            round_loop fuel base_ctx (players, 0) w
            = simulate_round base_ctx players w.
Proof. apply (round_loop_fuel base_ctx (length players) (players, 0) w). done. Qed.

(** ** [range] *)

Lemma py_range_length a b : length (py_range a b) = Z.to_nat (b - a).
Proof. unfold py_range. by rewrite length_map, length_seq. Qed.

Lemma py_range_elem a b x : x ∈ py_range a b ↔ a ≤ x < b.
Proof.
  unfold py_range. rewrite list_elem_of_fmap. split.
  - intros (j & -> & Hj%elem_of_seq). lia.
  - intros H. exists (Z.to_nat (x - a)). split; [lia|]. apply elem_of_seq. lia.
Qed.

Lemma py_range_NoDup a b : NoDup (py_range a b).
Proof.
  unfold py_range. apply NoDup_fmap_2; [|apply NoDup_seq].
  intros j k H. lia.
Qed.

(** ** Rounds with one impostor drawn from the pool *)

Section SingleImpostor.

Variables (base_ctx : VoteContext) (players : list Z) (i : Z) (w0 : World).
Hypothesis Himp : impostors base_ctx = {[ i ]}.
Hypothesis Hnd : NoDup players.
Hypothesis Hin : i ∈ players.

(** After [n] passes: the alive players are distinct members of the pool,
    exactly [n] of them are gone, the step counter is [n], and once a pass
    has run at least two players are left. *)
Lemma single_steps_inv n st w :
  round_steps base_ctx ((players, 0), w0) n (st, w) →
  NoDup st.1
  ∧ (∀ y, y ∈ st.1 → y ∈ players)
  ∧ length players = (length st.1 + n)%nat
  ∧ st.2 = Z.of_nat n
  ∧ (n = 0 ∨ 2 ≤ length st.1)%nat.
Proof.
  remember (st, w) as c eqn:Hc. intros Hs. revert st w Hc.
  induction Hs as [|n st1 w1 st2 w2 _ IH Hg Hb]; intros st w [= <- <-].
  - simpl. repeat split; try done. by left.
  - destruct (IH _ _ eq_refl) as (Hnd1 & Hsub & Hlen & Hstep & _).
    apply (round_guard_single _ _ i Himp Hnd1) in Hg as [_ H3].
    destruct st1 as [alive step].
    apply round_body_Ok in Hb as (_ & _ & e & _ & _ & _ & _ & Hrm & Hs2 & _).
    apply list_remove_Some in Hrm as (_ & Hl & Hsub' & Hnd').
    simpl in *. destruct (Hnd' Hnd1) as [Hnd2 _].
    repeat split; [done|auto|lia|lia|right; lia].
Qed.

Lemma single_steps_nonempty n st w :
  round_steps base_ctx ((players, 0), w0) n (st, w) → st.1 ≠ [].
Proof.
  intros Hs. pose proof (single_steps_inv _ _ _ Hs) as (_ & _ & Hlen & _ & Hn).
  intros Hnil. rewrite Hnil in *. simpl in *. destruct Hn as [->|]; [|lia].
  destruct players; [by apply elem_of_nil in Hin|simpl in Hlen; lia].
Qed.

Lemma single_steps_bound n st w :
  round_steps base_ctx ((players, 0), w0) n (st, w) →
  (n ≤ length players - 1)%nat.
Proof.
  intros Hs. pose proof (single_steps_nonempty _ _ _ Hs) as Hne.
  pose proof (single_steps_inv _ _ _ Hs) as (_ & _ & Hlen & _).
  destruct st.1; [done|simpl in Hlen; lia].
Qed.

(** A pass is entered with at least three players alive, the impostor
    among them, and it does not raise. *)
Lemma single_steps_guard n st w :
  round_steps base_ctx ((players, 0), w0) n (st, w) →
  round_guard base_ctx st.1 = true →
  i ∈ st.1 ∧ (3 ≤ length st.1)%nat
  ∧ ∃ st' w', round_body base_ctx st w = (Ok st', w').
Proof.
  intros Hs Hg. pose proof (single_steps_inv _ _ _ Hs) as (Hnd1 & _).
  apply (round_guard_single _ _ i Himp Hnd1) in Hg as [Hi H3].
  split; [done|]. split; [done|]. destruct st as [alive step].
  apply round_body_total; [done|simpl in *; lia].
Qed.

Lemma single_loop_total fuel n st w :
  round_steps base_ctx ((players, 0), w0) n (st, w) →
  (length st.1 ≤ fuel)%nat →
  ∃ w', round_loop fuel base_ctx st w = (Ok tt, w').
Proof.
  revert n st w. induction fuel as [|fuel IH]; intros n st w Hs Hlen; simpl;
    destruct (round_guard base_ctx st.1) eqn:Hg; try by eexists.
  - destruct (single_steps_guard _ _ _ Hs Hg) as (_ & H3 & _). lia.
  - destruct (single_steps_guard _ _ _ Hs Hg) as (_ & _ & st' & w' & Hb).
    unfold bind. rewrite Hb. apply (IH (S n)); [by eapply steps_S|].
    destruct st as [alive step].
    apply round_body_Ok in Hb as (_ & _ & e & _ & _ & _ & _ & Hrm & _).
    apply list_remove_Some in Hrm as (_ & Hl & _). simpl in *. lia.
Qed.

Lemma single_round_total :
  ∃ w', simulate_round base_ctx players w0 = (Ok tt, w').
Proof. eapply single_loop_total; [apply steps_O|done]. Qed.

End SingleImpostor.

(** ** The sweep as one loop over its cells *)

Lemma for_in_app {S A B} (body : A → B → M S B) xs ys acc s :
  for_in (xs ++ ys) body acc s
  = bind (for_in xs body acc) (for_in ys body) s.
Proof.
  revert acc s. induction xs as [|x xs IH]; intros acc s; simpl; [done|].
  unfold bind. destruct (body x acc s) as [[b| |] s1]; [|done..].
  by rewrite IH.
Qed.

Lemma for_in_ext {S A B} (body1 body2 : A → B → M S B) xs acc s :
  (∀ x b s0, body1 x b s0 = body2 x b s0) →
  for_in xs body1 acc s = for_in xs body2 acc s.
Proof.
  intros He. revert acc s. induction xs as [|x xs IH]; intros acc s; simpl; [done|].
  unfold bind. rewrite He. destruct (body2 x acc s) as [[b| |] s1]; [apply IH|done..].
Qed.

Lemma for_in_nested {S A A' B} (f : A → list A') (body : A' → B → M S B)
    xs acc s :
  for_in xs (λ x b, for_in (f x) body b) acc s = for_in (xs ≫= f) body acc s.
Proof.
  revert acc s. induction xs as [|x xs IH]; intros acc s; [done|].
  change ((x :: xs) ≫= f) with (f x ++ (xs ≫= f)).
  rewrite for_in_app. simpl. unfold bind.
  destruct (for_in (f x) body acc s) as [[b| |] s1]; [apply IH|done..].
Qed.

Lemma sweep_cells_loop params w :
  sweep params w = for_in (sweep_cells params) match_body 0 w.
Proof.
  unfold sweep, sweep_cells.
  rewrite <- for_in_nested. apply for_in_ext. intros P b s0.
  rewrite <- for_in_nested. apply for_in_ext. intros R b1 s1.
  rewrite <- for_in_nested. apply for_in_ext. intros k b2 s2.
  simpl. unfold match_body, bind. simpl.
  by destruct (simulate_match P R (b2 + 1) s2) as [[[]| |] s3].
Qed.

(** ** Properties of the two tables kept by every pass are kept by the run *)

Section TableInvariant.

Variable I : list VoteRow → list ResultRow → Prop.
Hypothesis I_pass : ∀ base_ctx st w st' w',
    I (votes w) (game_results w) →
    round_body base_ctx st w = (Ok st', w') →
    I (votes w') (game_results w').

Lemma round_steps_tables base_ctx c0 n c :
  round_steps base_ctx c0 n c →
  I (votes c0.2) (game_results c0.2) → I (votes c.2) (game_results c.2).
Proof.
  intros Hs H0. induction Hs as [|n st w st' w' _ IH Hg Hb]; [done|].
  eapply I_pass; [exact IH|exact Hb].
Qed.

Lemma simulate_round_tables base_ctx players w w' :
  simulate_round base_ctx players w = (Ok tt, w') →
  I (votes w) (game_results w) → I (votes w') (game_results w').
Proof.
  intros (n & st' & Hs & _)%round_loop_Ok.
  apply (round_steps_tables _ _ _ _ Hs).
Qed.

Lemma simulate_match_tables P R match_id w w' :
  simulate_match P R match_id w = (Ok tt, w') →
  I (votes w) (game_results w) → I (votes w') (game_results w').
Proof.
  intros Hrun H0.
  apply (for_in_Ok_inv (λ _ _ w, I (votes w) (game_results w))) in Hrun;
    [done|done|].
  intros _ round_id _ [] s0 [] s1 _ Hs0
    (imp & s2 & (g & _ & ->)%with_rng_Ok & Hround)%bind_Ok.
  by apply simulate_round_tables in Hround.
Qed.

Lemma sweep_tables params w r w' :
  sweep params w = (Ok r, w') →
  I (votes w) (game_results w) → I (votes w') (game_results w').
Proof.
  rewrite sweep_cells_loop. intros Hrun H0.
  apply (for_in_Ok_inv (λ _ _ w, I (votes w) (game_results w))) in Hrun;
    [done|done|].
  intros _ [P R] _ m s0 m1 s1 _ Hs0 ([] & s2 & Hm & [= <- <-])%bind_Ok.
  by apply simulate_match_tables in Hm.
Qed.

End TableInvariant.

(** On a seed the generator accepts, the run is the sweep from a fresh
    store. *)
Lemma run_complete_simulation_seeded default_rng params seed :
  0 ≤ seed →
  run_complete_simulation default_rng params seed
  = match sweep params (world0 (default_rng seed)) with
    | (Ok _, w) => Ok (votes w, game_results w)
    | (Raise e, _) => Raise e
    | (OutOfFuel, _) => OutOfFuel
    end.
Proof.
  intros Hs. unfold run_complete_simulation. by rewrite decide_False by lia.
Qed.

Lemma run_complete_simulation_negative default_rng params seed :
  seed < 0 → run_complete_simulation default_rng params seed = Raise NegativeSeed.
Proof.
  intros Hs. unfold run_complete_simulation. by rewrite decide_True by lia.
Qed.

(** A run that returns its tables got them from the sweep. *)
Lemma run_complete_simulation_Ok default_rng params seed vs rs :
  run_complete_simulation default_rng params seed = Ok (vs, rs) →
  ∃ r w', sweep params (world0 (default_rng seed)) = (Ok r, w')
          ∧ vs = votes w' ∧ rs = game_results w'.
Proof.
  unfold run_complete_simulation.
  destruct (decide (seed < 0)); [done|]. fold (world0 (default_rng seed)).
  destruct (sweep params _) as [[r| |] w']; try done.
  intros [= <- <-]. by exists r, w'.
Qed.

(** ** Matches that emit nothing *)

Lemma py_range_nil a b : b ≤ a → py_range a b = [].
Proof. intros H. unfold py_range. by replace (Z.to_nat (b - a)) with O by lia. Qed.

Lemma py_range_cons a b : a < b → py_range a b = a :: py_range (a + 1) b.
Proof.
  intros H. unfold py_range.
  replace (Z.to_nat (b - a)) with (S (Z.to_nat (b - (a + 1)))) by lia.
  simpl. f_equal; [lia|]. rewrite <- fmap_S_seq, <- list_fmap_compose.
  apply list_fmap_ext. intros _ k _. simpl. lia.
Qed.

(** With one impostor among at most two distinct players the [while]
    condition is false from the start: the round does nothing. *)
Lemma simulate_round_small base_ctx players i w :
  impostors base_ctx = {[ i ]} → NoDup players → (length players ≤ 2)%nat →
  round_guard base_ctx players = false
  ∧ simulate_round base_ctx players w = (Ok tt, w).
Proof.
  intros Himp Hnd Hlen.
  assert (round_guard base_ctx players = false) as Hg.
  { apply not_true_iff_false. rewrite (round_guard_single _ _ i Himp Hnd). lia. }
  split; [done|]. unfold simulate_round.
  destruct (length players); simpl; by rewrite Hg.
Qed.

Lemma simulate_match_quiet P R match_id w :
  quiet_cell (P, R) →
  ∃ g, simulate_match P R match_id w = (Ok tt, set_rng w g).
Proof.
  intros Hq. unfold simulate_match.
  destruct Hq as [HR|HP]; simpl in *.
  { rewrite py_range_nil by lia. exists (rng w). by destruct w. }
  assert (py_range 0 P ≠ [] ∧ (length (py_range 0 P) ≤ 2)%nat) as [Hne Hlen].
  { split; [destruct HP as [->| ->]; discriminate|].
    rewrite py_range_length. lia. }
  generalize (py_range 1 (R + 1)). intros rounds. revert w.
  induction rounds as [|round_id rounds IH]; intros w; simpl.
  - exists (rng w). by destruct w.
  - destruct (rng_choice_nonempty _ (rng w) Hne) as (imp & Hc & _).
    unfold bind at 1 2, with_rng at 1. rewrite Hc.
    match goal with |- context [simulate_round ?c ?p ?w1] =>
      destruct (simulate_round_small c p imp w1 eq_refl (py_range_NoDup 0 P) Hlen)
        as [_ ->] end.
    destruct (IH (set_rng w (advance (rng w)))) as [g Hg].
    exists g. exact Hg.
Qed.

(** An empty pool makes the first impostor draw of a match raise. *)
Lemma simulate_match_empty_pool P R match_id w :
  P ≤ 0 → 1 ≤ R →
  simulate_match P R match_id w = (Raise EmptyChoice, w).
Proof.
  intros HP HR. unfold simulate_match.
  rewrite (py_range_cons 1 (R + 1)), (py_range_nil 0 P) by lia. simpl.
  unfold bind at 1 2, with_rng. rewrite rng_choice_empty. by destruct w.
Qed.

Lemma for_in_match_quiet cells match_id w :
  Forall quiet_cell cells →
  ∃ g, for_in cells match_body match_id w
       = (Ok (match_id + Z.of_nat (length cells)), set_rng w g).
Proof.
  intros Hq. revert match_id w.
  induction Hq as [|[P R] cells Hc _ IH]; intros match_id w; simpl.
  - exists (rng w). rewrite Z.add_0_r. by destruct w.
  - destruct (simulate_match_quiet P R (match_id + 1) w Hc) as [g Hg].
    unfold bind at 1, match_body at 1, bind. simpl. rewrite Hg.
    destruct (IH (match_id + 1) (set_rng w g)) as [g' Hg'].
    exists g'. unfold ret. rewrite Hg'. unfold set_rng. simpl. do 2 f_equal. lia.
Qed.

Lemma sweep_cells_elem params P R :
  (P, R) ∈ sweep_cells params ↔
  P ∈ P_values params ∧ R ∈ R_values params ∧ 0 < n_matches params.
Proof.
  unfold sweep_cells. rewrite list_elem_of_bind. split.
  - intros (P' & (R' & (k & Hk%list_elem_of_singleton & Hn%py_range_elem)
                       %list_elem_of_bind & HR)%list_elem_of_bind & HP).
    injection Hk as -> ->. split; [done|]. split; [done|lia].
  - intros (HP & HR & Hn). exists P. split; [|done].
    apply list_elem_of_bind. exists R. split; [|done].
    apply list_elem_of_bind. exists 0. split; [by left|].
    apply py_range_elem. lia.
Qed.

Lemma run_quiet default_rng params seed :
  0 ≤ seed →
  Forall quiet_cell (sweep_cells params) →
  run_complete_simulation default_rng params seed = Ok ([], []).
Proof.
  intros Hs Hq. rewrite run_complete_simulation_seeded, sweep_cells_loop by done.
  by destruct (for_in_match_quiet _ 0 (world0 (default_rng seed)) Hq) as [g ->].
Qed.

(** ** The identifiers of the rows *)

Lemma round_block_snoc mult m r sizes a :
  round_block mult m r (sizes ++ [a])
  = round_block mult m r sizes
    ++ replicate (mult a) (m, r, Z.of_nat (length sizes) + 1).
Proof.
  unfold round_block. rewrite imap_app, join_app. simpl.
  by rewrite app_nil_r, Nat.add_0_r.
Qed.

Lemma match_block_snoc mult m rounds sizes :
  match_block mult m (rounds ++ [sizes])
  = match_block mult m rounds
    ++ round_block mult m (Z.of_nat (length rounds) + 1) sizes.
Proof.
  unfold match_block. rewrite imap_app, join_app. simpl.
  by rewrite app_nil_r, Nat.add_0_r.
Qed.

Lemma sweep_block_snoc mult shape rounds :
  sweep_block mult (shape ++ [rounds])
  = sweep_block mult shape
    ++ match_block mult (Z.of_nat (length shape) + 1) rounds.
Proof.
  unfold sweep_block. rewrite imap_app, join_app. simpl.
  by rewrite app_nil_r, Nat.add_0_r.
Qed.

Lemma vote_row_ids ctx (l : list (Z * Z)) :
  vote_ids <$> map (vote_row ctx) l
  = replicate (length l) (match_id ctx, round_id ctx, step_id ctx).
Proof. induction l as [|x l IH]; simpl; [done|]. f_equal. exact IH. Qed.

Lemma round_steps_O_inv base_ctx c0 c : round_steps base_ctx c0 O c → c = c0.
Proof. by inversion 1. Qed.

Lemma py_range_lookup a b j x : py_range a b !! j = Some x → x = a + Z.of_nat j.
Proof.
  unfold py_range. rewrite list_lookup_fmap.
  destruct (seq 0 _ !! j) as [k|] eqn:E; [|done].
  apply lookup_seq in E as [-> _]. by intros [= <-].
Qed.

(** After [n] passes of a round, whatever the context: the step counter is
    [n], [n] players are gone, and the rows added to the two tables carry
    the identifiers of passes 1 to [n] of this round. *)
Lemma round_steps_blocks base_ctx alive0 w0 n st w :
  round_steps base_ctx ((alive0, 0), w0) n (st, w) →
  st.2 = Z.of_nat n
  ∧ length alive0 = (length st.1 + n)%nat
  ∧ ∃ sizes,
      length sizes = n
      ∧ (∀ j a, sizes !! j = Some a → (a + j = length alive0)%nat)
      ∧ vote_ids <$> votes w
        = (vote_ids <$> votes w0)
          ++ round_block id (match_id base_ctx) (round_id base_ctx) sizes
      ∧ result_ids <$> game_results w
        = (result_ids <$> game_results w0)
          ++ round_block (λ _, 1%nat) (match_id base_ctx) (round_id base_ctx) sizes.
Proof.
  remember (st, w) as c eqn:Hc. intros Hs. revert st w Hc.
  induction Hs as [|n st1 w1 st2 w2 _ IH Hg Hb]; intros st w [= <- <-].
  - simpl. split; [done|]. split; [lia|]. exists [].
    unfold round_block. simpl. by rewrite !app_nil_r.
  - destruct (IH _ _ eq_refl) as (Hstep & Hlen & sizes & Hsz & Hall & Hv & Hr).
    destruct st1 as [alive step]. simpl in *.
    apply round_body_Ok in Hb
      as (targets & g1 & e & mv & most & Hct & _ & Hrm & Hs2 & Hv2 & Hr2).
    apply list_remove_Some in Hrm as (_ & Hl & _).
    apply choose_targets_length in Hct.
    split; [lia|]. split; [lia|].
    exists (sizes ++ [length alive]).
    split; [rewrite length_app; simpl; lia|]. split; [|split].
    + intros j a [[_ Hj]|[-> <-]]%lookup_snoc_Some; [by apply Hall|lia].
    + rewrite Hv2, fmap_app, Hv, round_block_snoc. rewrite vote_row_ids, (assoc_L (++)).
      rewrite length_zip, Hct, Nat.min_id. simpl. do 3 f_equal. lia.
    + rewrite Hr2, fmap_app, Hr, round_block_snoc, (assoc_L (++)). simpl.
      unfold result_ids. simpl. do 3 f_equal. lia.
Qed.

(** A match that returns normally ran [R] rounds on [P] players, and added
    their rows in order. *)
Lemma simulate_match_blocks P R m w0 w' :
  simulate_match P R m w0 = (Ok tt, w') →
  ∃ rounds,
    match_shape (P, R) rounds
    ∧ vote_ids <$> votes w'
      = (vote_ids <$> votes w0) ++ match_block id m rounds
    ∧ result_ids <$> game_results w'
      = (result_ids <$> game_results w0) ++ match_block (λ _, 1%nat) m rounds.
Proof.
  intros Hrun.
  apply (for_in_Ok_inv
           (λ done _ w, ∃ rounds,
              length rounds = length done
              ∧ Forall (round_shape P) rounds
              ∧ vote_ids <$> votes w
                = (vote_ids <$> votes w0) ++ match_block id m rounds
              ∧ result_ids <$> game_results w
                = (result_ids <$> game_results w0)
                  ++ match_block (λ _, 1%nat) m rounds)) in Hrun.
  - destruct Hrun as (rounds & Hlen & Hall & Hv & Hr). exists rounds.
    split; [|done]. split; [|done].
    rewrite Hlen, py_range_length. simpl. lia.
  - exists []. unfold match_block. simpl. by rewrite !app_nil_r.
  - intros done round_id rest [] s0 [] s1 Hxs (rounds & Hlen & Hall & Hv & Hr)
      (imp & s2 & (g & [Himp _]%rng_choice_Ok & ->)%with_rng_Ok & Hround)%bind_Ok.
    assert (round_id = Z.of_nat (length rounds) + 1) as ->.
    { pose proof (list_lookup_middle done rest round_id _ eq_refl) as Hl.
      rewrite <- Hxs in Hl. apply py_range_lookup in Hl. lia. }
    pose proof Hround as (n & st' & Hs & Hg)%round_loop_Ok.
    pose proof (round_steps_blocks _ _ _ _ _ _ Hs)
      as (_ & _ & sizes & Hsz & Hsizes & Hv' & Hr').
    pose proof (λ H, single_steps_inv _ _ imp _ H (py_range_NoDup 0 P) _ _ _ Hs)
      as Hinv.
    destruct (Hinv eq_refl) as (_ & _ & Hcount & _ & Hleft). clear Hinv.
    assert (Z.of_nat (length (py_range 0 P)) = P) as HP.
    { rewrite py_range_length. apply py_range_elem in Himp. lia. }
    exists (rounds ++ [sizes]). simpl in *.
    split; [rewrite !length_app; simpl; lia|]. split; [|split].
    + apply Forall_app. split; [done|]. constructor; [|constructor].
      split; [|split].
      * intros j a Hj. apply Hsizes in Hj. lia.
      * intros HP3. split; [|lia].
        destruct n as [|n]; [|lia]. exfalso.
        apply round_steps_O_inv in Hs. injection Hs as -> _.
        apply not_true_iff_false in Hg. apply Hg. simpl.
        apply (round_guard_single _ (py_range 0 P) imp);
          [done|apply py_range_NoDup|].
        split; [done|lia].
      * intros HP3. destruct sizes; [done|simpl in Hsz; lia].
    + by rewrite Hv', Hv, match_block_snoc, (assoc_L (++)).
    + by rewrite Hr', Hr, match_block_snoc, (assoc_L (++)).
Qed.

(** A run of the cell loop that returns normally numbered its matches from
    the counter it started with, and added their rows in order. *)
Lemma sweep_blocks cells g r w' :
  for_in cells match_body 0 (world0 g) = (Ok r, w') →
  r = Z.of_nat (length cells)
  ∧ ∃ shape,
      Forall2 match_shape cells shape
      ∧ vote_ids <$> votes w' = sweep_block id shape
      ∧ result_ids <$> game_results w' = sweep_block (λ _, 1%nat) shape.
Proof.
  intros Hrun.
  apply (for_in_Ok_inv
           (λ done m w,
              m = Z.of_nat (length done)
              ∧ ∃ shape,
                  Forall2 match_shape done shape
                  ∧ vote_ids <$> votes w = sweep_block id shape
                  ∧ result_ids <$> game_results w
                    = sweep_block (λ _, 1%nat) shape)) in Hrun; [done| |].
  - split; [done|]. by exists [].
  - intros done [P R] rest m s0 m1 s1 _ (-> & shape & Hall & Hv & Hr)
      ([] & s2 & Hm & [= <- <-])%bind_Ok.
    split; [rewrite length_app; simpl; lia|].
    apply simulate_match_blocks in Hm as (rounds & Hshape & Hv' & Hr').
    exists (shape ++ [rounds]).
    pose proof Hall as Hlen%Forall2_length.
    split; [apply Forall2_app; [done|by constructor]|].
    simpl in *. rewrite Hv', Hr', Hv, Hr, !sweep_block_snoc, <- Hlen. done.
Qed.

(** *** Which identifiers occur *)

Lemma round_block_elem mult m r sizes x :
  x ∈ round_block mult m r sizes ↔
  ∃ j a, sizes !! j = Some a ∧ x = (m, r, Z.of_nat j + 1) ∧ mult a ≠ O.
Proof.
  unfold round_block. rewrite list_elem_of_join. split.
  - intros (l & Hx & (j & a & -> & Hj)%elem_of_lookup_imap).
    apply elem_of_replicate in Hx as [-> Hm]. by exists j, a.
  - intros (j & a & Hj & -> & Hm). eexists. split.
    + apply elem_of_replicate. by split.
    + apply (elem_of_lookup_imap_2
               (λ j a, replicate (mult a) (m, r, Z.of_nat j + 1)) _ _ _ Hj).
Qed.

Lemma match_block_elem mult m rounds x :
  x ∈ match_block mult m rounds ↔
  ∃ j sizes, rounds !! j = Some sizes
             ∧ x ∈ round_block mult m (Z.of_nat j + 1) sizes.
Proof.
  unfold match_block. rewrite list_elem_of_join. split.
  - intros (l & Hx & (j & a & -> & Hj)%elem_of_lookup_imap). by exists j, a.
  - intros (j & a & Hj & Hx). eexists. split; [exact Hx|].
    apply (elem_of_lookup_imap_2
             (λ j sizes, round_block mult m (Z.of_nat j + 1) sizes) _ _ _ Hj).
Qed.

Lemma sweep_block_elem mult shape x :
  x ∈ sweep_block mult shape ↔
  ∃ j rounds, shape !! j = Some rounds
              ∧ x ∈ match_block mult (Z.of_nat j + 1) rounds.
Proof.
  unfold sweep_block. rewrite list_elem_of_join. split.
  - intros (l & Hx & (j & a & -> & Hj)%elem_of_lookup_imap). by exists j, a.
  - intros (j & a & Hj & Hx). eexists. split; [exact Hx|].
    apply (elem_of_lookup_imap_2
             (λ j rounds, match_block mult (Z.of_nat j + 1) rounds) _ _ _ Hj).
Qed.

(** Match number [j + 1] has a row in the result table exactly when its
    cell has at least three players and at least one round. *)
Lemma sweep_block_match_ids cells shape (j : nat) :
  Forall2 match_shape cells shape →
  (∃ r s, (Z.of_nat j + 1, r, s) ∈ sweep_block (λ _, 1%nat) shape) ↔
  ∃ P R, cells !! j = Some (P, R) ∧ 3 ≤ P ∧ 1 ≤ R.
Proof.
  intros Hall. split.
  - intros (r & s & (j' & rounds & Hj & Hx)%sweep_block_elem).
    apply match_block_elem in Hx as (jr & sizes & Hjr & Hx).
    apply round_block_elem in Hx as (js & a & Hjs & [= Hjj _ _] & _).
    assert (j' = j) as -> by lia.
    destruct (Forall2_lookup_r _ _ _ _ _ Hall Hj) as ([P R] & Hc & Hlen & Hrs).
    exists P, R. split; [done|]. simpl in *.
    destruct (Forall_lookup_1 _ _ _ _ Hrs Hjr) as (_ & _ & Hsmall).
    apply lookup_lt_Some in Hjr.
    split; [|lia]. destruct (decide (3 ≤ P)); [done|].
    rewrite Hsmall in Hjs by lia. done.
  - intros (P & R & Hc & HP & HR).
    destruct (Forall2_lookup_l _ _ _ _ _ Hall Hc) as (rounds & Hj & Hlen & Hrs).
    simpl in *.
    destruct (lookup_lt_is_Some_2 rounds 0) as [sizes Hsizes]; [lia|].
    destruct (Forall_lookup_1 _ _ _ _ Hrs Hsizes) as (_ & Hbig & _).
    destruct (lookup_lt_is_Some_2 sizes 0) as [a Ha]; [lia|].
    exists 1, 1. apply sweep_block_elem. exists j, rounds. split; [done|].
    apply match_block_elem. exists O, sizes. split; [done|].
    apply round_block_elem. by exists O, a.
Qed.

(** ** Runs that return normally *)

Lemma simulate_match_total P R match_id w :
  1 ≤ P → ∃ w', simulate_match P R match_id w = (Ok tt, w').
Proof.
  intros HP. unfold simulate_match.
  generalize (py_range 1 (R + 1)). intros rounds. revert w.
  induction rounds as [|round_id rounds IH]; intros w; simpl; [by eexists|].
  destruct (rng_choice_nonempty (py_range 0 P) (rng w)) as (imp & Hc & Himp).
  { rewrite (py_range_cons 0 P) by lia. done. }
  unfold bind at 1 2, with_rng at 1. rewrite Hc.
  match goal with |- context [simulate_round ?c ?p ?w1] =>
    destruct (single_round_total c p imp w1 eq_refl (py_range_NoDup 0 P))
      as [w2 ->] end.
  apply IH.
Qed.

Lemma for_in_match_total cells match_id w :
  Forall (λ cell, 1 ≤ cell.1) cells →
  ∃ r w', for_in cells match_body match_id w = (Ok r, w').
Proof.
  intros Hc. revert match_id w.
  induction Hc as [|[P R] cells HP _ IH]; intros match_id w; simpl.
  - by eexists _, _.
  - destruct (simulate_match_total P R (match_id + 1) w HP) as [w1 Hw1].
    unfold bind at 1, match_body at 1, bind. simpl. rewrite Hw1. apply IH.
Qed.

(** * The claims *)

(** ** C7 *)

(** C7. A pass of the round loop appends to the vote table exactly one row
    per player alive when the pass starts: the rows' voters are the alive
    list, in its order, and all carry the step number of this pass. *)
Theorem vote_rows_per_step base_ctx players_alive step w st' w' :
  round_body base_ctx (players_alive, step) w = (Ok st', w') →
  ∃ rows,
    votes w' = votes w ++ rows
    ∧ length rows = length players_alive
    ∧ map v_voter rows = players_alive
    ∧ Forall (λ r, v_step r = step + 1) rows
    ∧ (length st'.1 + 1 = length players_alive)%nat.
Proof.
  intros (targets & g1 & e & mv & most & Hct & _ & Hrm & _ & Hv & _)%round_body_Ok.
  pose proof (choose_targets_length _ _ _ _ Hct) as Hlen.
  apply list_remove_Some in Hrm as (_ & Hl & _).
  eexists. split; [exact Hv|].
  split; [rewrite length_map, length_zip; lia|].
  split; [|split; [|simpl; lia]].
  - rewrite <- list_fmap_compose.
    change (v_voter ∘ vote_row _) with (fst : Z * Z → Z).
    apply fst_zip. lia.
  - apply Forall_fmap, Forall_forall. by intros [v t] _.
Qed.

Lemma vote_rows_per_step_witness :
  ∃ rows, length rows = 4%nat ∧ map v_voter rows = [0; 1; 2; 3].
Proof.
  destruct (round_body (ex_ctx 4 0) (py_range 0 4, 0) (world0 seq_rng))
    as [[st'| |] w'] eqn:Hb; try (vm_compute in Hb; discriminate).
  destruct (vote_rows_per_step _ _ _ _ _ _ Hb) as (rows & _ & Hl & Hv & _).
  exists rows. split; [exact Hl|exact Hv].
Defined.

(** ** C3 *)

(** C3. In a round whose single impostor [i] was drawn from the pool
    [range(P)], every pass appends one result row; the player it names was
    removed from the alive list, and its [impostors_wins] flag is true
    exactly when, in the alive list after that removal, the alive impostors
    are at least as many as the alive civilians.  So the flag is true
    exactly when a civilian was removed and two players are left, and it is
    false whenever the removed player is the impostor. *)
Theorem win_flag_post_elimination P i base_ctx w0 n st w st' w' :
  impostors base_ctx = {[ i ]} →
  i ∈ py_range 0 P →
  round_steps base_ctx ((py_range 0 P, 0), w0) n (st, w) →
  round_guard base_ctx st.1 = true →
  round_body base_ctx st w = (Ok st', w') →
  ∃ row,
    game_results w' = game_results w ++ [row]
    ∧ list_remove (g_eliminated row) st.1 = Some st'.1
    ∧ g_impostors_wins row = impostors_win st'.1 (impostors base_ctx)
    ∧ (g_impostors_wins row = true
       ↔ spec_win_condition st'.1 (impostors base_ctx))
    ∧ (g_impostors_wins row = true
       ↔ g_eliminated row ≠ i ∧ length st'.1 = 2%nat)
    ∧ (g_eliminated row = i → g_impostors_wins row = false).
Proof.
  intros Himp Hin Hs Hg Hb.
  pose proof (single_steps_inv _ _ _ _ Himp (py_range_NoDup 0 P) _ _ _ Hs)
    as (Hnd1 & _).
  apply (round_guard_single _ _ i Himp Hnd1) in Hg as [Hi H3].
  destruct st as [alive step].
  apply round_body_Ok in Hb as (targets & g1 & e & mv & most & _ & _ & Hrm & _ & _ & Hr).
  eexists. split; [exact Hr|]. simpl. split; [done|]. split; [done|].
  apply list_remove_Some in Hrm as (_ & Hl & _ & Hnd').
  destruct (Hnd' Hnd1) as [Hnd2 Hiff]. simpl in *.
  split; [by apply impostors_win_spec|].
  assert (impostors_win st'.1 (impostors base_ctx) = true
          ↔ e ≠ i ∧ length st'.1 = 2%nat) as Hwin.
  { rewrite Himp, (impostors_win_single _ _ Hnd2), Hiff. split.
    - intros [[[_ Hne] Hle]|Hnil]; [split; [done|lia]|].
      rewrite Hnil in Hl. simpl in Hl. lia.
    - intros [Hne H2]. left. split; [by split|lia]. }
  split; [done|].
  intros ->. apply not_true_iff_false. rewrite Hwin. tauto.
Qed.

Lemma win_flag_post_elimination_witness :
  (∃ row, g_eliminated row = 0 ∧ g_impostors_wins row = false)
  ∧ (∃ row pool,
       g_eliminated row = 1 ∧ g_impostors_wins row = true
       ∧ spec_win_condition pool {[ 0 ]} ∧ length pool = 2%nat).
Proof.
  split.
  - destruct (round_body (ex_ctx 3 0) (py_range 0 3, 0) (world0 (const_rng 0)))
      as [[st'| |] w'] eqn:Hb; try (vm_compute in Hb; discriminate).
    destruct (win_flag_post_elimination 3 0 (ex_ctx 3 0) (world0 (const_rng 0)) O
                (py_range 0 3, 0) (world0 (const_rng 0)) st' w' eq_refl)
      as (row & Hr & _ & _ & _ & _ & Hfalse).
    + apply py_range_elem. lia.
    + apply steps_O.
    + vm_compute. reflexivity.
    + exact Hb.
    + assert (g_eliminated row = 0) as He.
      { vm_compute in Hb. injection Hb as <- <-. simpl in Hr.
        injection Hr as <-. reflexivity. }
      exists row. split; [exact He|]. apply Hfalse. exact He.
  - destruct (round_body (ex_ctx 3 0) (py_range 0 3, 0) (world0 seq_rng))
      as [[st'| |] w'] eqn:Hb; try (vm_compute in Hb; discriminate).
    destruct (win_flag_post_elimination 3 0 (ex_ctx 3 0) (world0 seq_rng) O
                (py_range 0 3, 0) (world0 seq_rng) st' w' eq_refl)
      as (row & Hr & _ & _ & Hspec & Htrue & _).
    + apply py_range_elem. lia.
    + apply steps_O.
    + vm_compute. reflexivity.
    + exact Hb.
    + assert (g_eliminated row = 1 ∧ length st'.1 = 2%nat) as [He Hlen].
      { vm_compute in Hb. injection Hb as <- <-. simpl in Hr.
        injection Hr as <-. split; reflexivity. }
      assert (g_impostors_wins row = true) as Hflag
        by (apply Htrue; split; [lia|exact Hlen]).
      exists row, st'.1. split; [exact He|]. split; [exact Hflag|].
      split; [apply Hspec; exact Hflag|exact Hlen].
Defined.

(** ** C5 *)

(** C5. A round whose single impostor was drawn from [range(P)] returns
    normally; after [n] passes exactly [n] players are gone, [n] is at most
    [P - 1], and the alive list is not empty; each pass shortens the alive
    list by one. *)
Theorem round_terminates P i base_ctx w0 :
  impostors base_ctx = {[ i ]} →
  i ∈ py_range 0 P →
  (∃ n st' w',
      simulate_round base_ctx (py_range 0 P) w0 = (Ok tt, w')
      ∧ round_steps base_ctx ((py_range 0 P, 0), w0) n (st', w')
      ∧ round_guard base_ctx st'.1 = false)
  ∧ (∀ n st w,
       round_steps base_ctx ((py_range 0 P, 0), w0) n (st, w) →
       Z.of_nat n ≤ P - 1
       ∧ Z.of_nat (length st.1) = P - Z.of_nat n
       ∧ st.1 ≠ [])
  ∧ (∀ n st w st' w',
       round_steps base_ctx ((py_range 0 P, 0), w0) n (st, w) →
       round_guard base_ctx st.1 = true →
       round_body base_ctx st w = (Ok st', w') →
       length st.1 = S (length st'.1)).
Proof.
  intros Himp Hin.
  pose proof (py_range_NoDup 0 P) as Hnd.
  assert (Z.of_nat (length (py_range 0 P)) = P) as HP.
  { rewrite py_range_length. apply py_range_elem in Hin. lia. }
  split; [|split].
  - destruct (single_round_total _ _ i w0 Himp Hnd) as [w' Hw'].
    pose proof Hw' as (n & st' & Hs & Hg)%round_loop_Ok. by exists n, st', w'.
  - intros n st w Hs.
    pose proof (single_steps_inv _ _ _ _ Himp Hnd _ _ _ Hs) as (_ & _ & Hlen & _).
    pose proof (single_steps_bound _ _ _ _ Himp Hnd Hin _ _ _ Hs).
    pose proof (single_steps_nonempty _ _ _ _ Himp Hnd Hin _ _ _ Hs) as Hne.
    assert (1 ≤ length st.1)%nat by (destruct st.1; [done|simpl; lia]).
    split; [lia|]. split; [lia|done].
  - intros n [alive step] w st' w' _ _ Hb.
    apply round_body_Ok in Hb as (_ & _ & e & _ & _ & _ & _ & Hrm & _).
    by apply list_remove_Some in Hrm as (_ & Hl & _).
Qed.

Lemma round_terminates_witness :
  ∃ w', simulate_round (ex_ctx 4 0) (py_range 0 4) (world0 seq_rng) = (Ok tt, w').
Proof.
  destruct (round_terminates 4 0 (ex_ctx 4 0) (world0 seq_rng) eq_refl)
    as ((n & st' & w' & Hrun & _) & _).
  - apply py_range_elem. lia.
  - by exists w'.
Defined.

(** ** C6 *)

(** C6. In a round started with at least two players and a single impostor
    drawn from the pool, at least two players are alive at every point of
    the loop; a pass is only entered with the impostor and at least two
    others alive, so every voter has a non-empty candidate list, the pass
    does not raise, and the round returns normally. *)
Theorem voting_needs_two_alive P i base_ctx w0 :
  2 ≤ P →
  impostors base_ctx = {[ i ]} →
  i ∈ py_range 0 P →
  (∀ n st w,
     round_steps base_ctx ((py_range 0 P, 0), w0) n (st, w) →
     (2 ≤ length st.1)%nat
     ∧ (round_guard base_ctx st.1 = true →
        (∀ voter, voter ∈ st.1 → filter (λ p, p ≠ voter) st.1 ≠ [])
        ∧ ∃ st' w', round_body base_ctx st w = (Ok st', w')))
  ∧ ∃ w', simulate_round base_ctx (py_range 0 P) w0 = (Ok tt, w').
Proof.
  intros HP Himp Hin. pose proof (py_range_NoDup 0 P) as Hnd.
  split; [|by eapply single_round_total].
  intros n st w Hs.
  pose proof (single_steps_inv _ _ _ _ Himp Hnd _ _ _ Hs)
    as (Hnd1 & _ & Hlen & _ & Hn).
  split.
  { destruct Hn as [->|]; [|done]. rewrite py_range_length in Hlen. lia. }
  intros Hg.
  destruct (single_steps_guard _ _ _ _ Himp Hnd _ _ _ Hs Hg) as (Hi & H3 & Hb).
  split; [|done]. intros voter Hv Hnil.
  destruct st.1 as [|a [|b l]]; simpl in H3; try lia.
  apply NoDup_cons in Hnd1 as [Hab _].
  assert (∃ p, p ∈ a :: b :: l ∧ p ≠ voter) as (p & Hp & Hne).
  { destruct (decide (voter = a)) as [->|Hne].
    - exists b. split; [right; left|]. intros ->. apply Hab. by left.
    - exists a. split; [by left|done]. }
  assert (p ∈ filter (λ p, p ≠ voter) (a :: b :: l)) as Hf
    by by apply list_elem_of_filter.
  rewrite Hnil in Hf. by apply elem_of_nil in Hf.
Qed.

Lemma voting_needs_two_alive_witness :
  ∃ w', simulate_round (ex_ctx 4 0) (py_range 0 4) (world0 seq_rng) = (Ok tt, w').
Proof.
  refine (proj2 (voting_needs_two_alive 4 0 (ex_ctx 4 0) (world0 seq_rng) _ eq_refl _)).
  - lia.
  - apply py_range_elem. lia.
Defined.

(** ** C9 *)

(** C9. In the vote table of a completed run, no row has its voter as its
    target. *)
Theorem no_self_vote default_rng params seed vs rs :
  run_complete_simulation default_rng params seed = Ok (vs, rs) →
  Forall (λ row, v_voter row ≠ v_target row) vs.
Proof.
  intros (r & w' & Hrun & -> & _)%run_complete_simulation_Ok.
  apply (sweep_tables (λ vs _, Forall (λ row, v_voter row ≠ v_target row) vs))
    in Hrun; [done| |constructor].
  clear. intros base_ctx [alive step] w st' w' Hw Hb.
  apply round_body_Ok in Hb as (targets & g1 & _ & _ & _ & Hct & _ & _ & _ & -> & _).
  apply Forall_app. split; [done|].
  apply choose_targets_Ok in Hct.
  apply Forall_fmap, Forall_forall. intros [v t] Hvt. simpl.
  apply list_elem_of_lookup_1 in Hvt as [j Hj].
  apply lookup_zip_with_Some in Hj as (v' & t' & [= <- <-] & Hv & Ht).
  destruct (Forall2_lookup_lr _ _ _ _ _ _ Hct Hv Ht) as [_ Hne]. congruence.
Qed.

Lemma no_self_vote_witness :
  ∃ vs rs, run_complete_simulation (λ _, seq_rng) ex_params 42 = Ok (vs, rs)
           ∧ vs ≠ [] ∧ Forall (λ row, v_voter row ≠ v_target row) vs.
Proof.
  destruct (run_complete_simulation (λ _, seq_rng) ex_params 42)
    as [[vs rs]| |] eqn:Hrun; try (vm_compute in Hrun; discriminate).
  exists vs, rs. split; [done|]. split.
  - intros ->. vm_compute in Hrun. discriminate.
  - exact (no_self_vote _ _ _ _ _ Hrun).
Defined.

(** ** C10 *)

(** C10. Every target of a voting step is alive; the player picked from the
    most-voted set is one of the targets, so it is alive and [remove] finds
    it: no pass raises from [remove].  In the result table of a completed
    run every row has [max_votes] and [tie_size] at least 1. *)
Theorem eliminated_is_alive :
  (∀ players_alive g targets g1 eliminated max_votes most_voted g2,
     choose_targets players_alive g = (Ok targets, g1) →
     pick_eliminated_from_targets targets g1
       = (Ok (eliminated, max_votes, most_voted), g2) →
     Forall (λ t, t ∈ players_alive) targets
     ∧ eliminated ∈ most_voted
     ∧ (∀ p, p ∈ most_voted → p ∈ targets)
     ∧ eliminated ∈ players_alive
     ∧ is_Some (list_remove eliminated players_alive))
  ∧ (∀ base_ctx st w w', round_body base_ctx st w ≠ (Raise NotInList, w'))
  ∧ (∀ default_rng params seed vs rs,
       run_complete_simulation default_rng params seed = Ok (vs, rs) →
       Forall (λ row, 1 ≤ g_max_votes row ∧ 1 ≤ g_tie_size row) rs).
Proof.
  assert (∀ players_alive g targets g1 eliminated max_votes most_voted g2,
     choose_targets players_alive g = (Ok targets, g1) →
     pick_eliminated_from_targets targets g1
       = (Ok (eliminated, max_votes, most_voted), g2) →
     Forall (λ t, t ∈ players_alive) targets
     ∧ eliminated ∈ most_voted
     ∧ (∀ p, p ∈ most_voted → p ∈ targets)
     ∧ eliminated ∈ players_alive
     ∧ is_Some (list_remove eliminated players_alive)) as Hstep.
  { intros alive g targets g1 e mv most g2 Hct Hpick.
    apply choose_targets_Ok in Hct.
    assert (Forall (λ t, t ∈ alive) targets) as Hall.
    { apply Forall_forall. intros t [j Hj]%list_elem_of_lookup_1.
      by destruct (Forall2_lookup_r _ _ _ _ _ Hct Hj) as (v & _ & Ht & _). }
    apply pick_eliminated_Ok in Hpick as (_ & -> & He & Het & _).
    rewrite Forall_forall in Hall.
    split; [by apply Forall_forall|]. split; [done|].
    split; [intros p; apply most_voted_incl|].
    split; [auto|]. apply list_remove_elem. auto. }
  split; [exact Hstep|]. split.
  - intros base_ctx st w w'.
    unfold round_body, bind, with_rng, append_votes_rows, remove_or_raise,
      append_game_result_row, ret, raise. simpl.
    destruct (choose_targets st.1 (rng w)) as [[targets| |] g1] eqn:Hct;
      [|by apply choose_targets_Raise in Hct as ->|done].
    simpl.
    destruct (pick_eliminated_from_targets targets g1)
      as [[[[e mv] most]| |] g2] eqn:Hp.
    + destruct (Hstep _ _ _ _ _ _ _ _ Hct Hp) as (_ & _ & _ & _ & [l' ->]). done.
    + unfold pick_eliminated_from_targets in Hp.
      destruct (py_max _) as [m|e'|] eqn:Hm.
      * unfold bind in Hp. destruct (rng_choice _ g1) as [[x| |] g3] eqn:Hc;
          try done.
        unfold rng_choice in Hc. destruct (_ !! _); [done|].
        injection Hc as <- <-. by injection Hp as <- <-.
      * unfold py_max in Hm. destruct (_.*2); [|done].
        injection Hm as <-. by injection Hp as <- <-.
      * done.
    + done.
  - intros default_rng params seed vs rs
      (r & w' & Hrun & _ & ->)%run_complete_simulation_Ok.
    apply (sweep_tables
             (λ _ rs, Forall (λ row, 1 ≤ g_max_votes row ∧ 1 ≤ g_tie_size row) rs))
      in Hrun; [done| |constructor].
    clear -Hstep. intros base_ctx [alive step] w st' w' Hw Hb.
    apply round_body_Ok in Hb as (targets & g1 & e & mv & most & _ & Hp & _ & _ & _ & ->).
    apply pick_eliminated_Ok in Hp as (_ & _ & _ & _ & Hmv & Hlen & _).
    apply Forall_app. split; [done|]. repeat constructor; simpl; [done|lia].
Qed.

Lemma eliminated_is_alive_witness :
  ∃ vs rs, run_complete_simulation (λ _, seq_rng) ex_params 42 = Ok (vs, rs)
           ∧ rs ≠ []
           ∧ Forall (λ row, 1 ≤ g_max_votes row ∧ 1 ≤ g_tie_size row) rs.
Proof.
  destruct (run_complete_simulation (λ _, seq_rng) ex_params 42)
    as [[vs rs]| |] eqn:Hrun; try (vm_compute in Hrun; discriminate).
  exists vs, rs. split; [done|]. split.
  - intros ->. vm_compute in Hrun. discriminate.
  - exact (proj2 (proj2 eliminated_is_alive) _ _ _ _ _ Hrun).
Defined.

(** ** C1 *)

(** C1 as stated fails: with P = 2 and R = 1 the run emits no row at all, so
    there is no step with a tie of size 2. *)
Lemma two_player_one_step_counterexample :
  run_complete_simulation (λ _, seq_rng) two_player_params 42 = Ok ([], [])
  ∧ ¬ ∃ vs row,
        run_complete_simulation (λ _, seq_rng) two_player_params 42
          = Ok (vs, [row])
        ∧ g_tie_size row = 2.
Proof.
  split; [by vm_compute|].
  intros (vs & row & Hrun & _). vm_compute in Hrun. discriminate.
Qed.

(** C1, amended. With P = 2 and one impostor the [while] condition is false
    on the full pool (one impostor against one civilian is parity), so the
    round makes no pass, draws nothing and emits nothing, and a run over
    P = 2, R = 1 on a non-negative seed returns two empty tables.  A voting step on two distinct
    players, where one is run, has each vote for the other, a top count of 1
    shared by both, and the eliminated player drawn from the two. *)
Theorem two_player_round i base_ctx w0 :
  impostors base_ctx = {[ i ]} →
  i ∈ py_range 0 2 →
  round_guard base_ctx (py_range 0 2) = false
  ∧ simulate_round base_ctx (py_range 0 2) w0 = (Ok tt, w0)
  ∧ (∀ default_rng seed,
       0 ≤ seed →
       run_complete_simulation default_rng two_player_params seed = Ok ([], []))
  ∧ (∀ a b g, a ≠ b →
       ∃ eliminated,
         choose_targets [a; b] g = (Ok [b; a], advance (advance g))
         ∧ pick_eliminated_from_targets [b; a] (advance (advance g))
           = (Ok (eliminated, 1, [b; a]), advance (advance (advance g)))
         ∧ rng_choice [b; a] (advance (advance g))
           = (Ok eliminated, advance (advance (advance g)))
         ∧ Z.of_nat (length [b; a]) = 2).
Proof.
  intros Himp Hin.
  destruct (simulate_round_small base_ctx (py_range 0 2) i w0 Himp
              (py_range_NoDup 0 2)) as [Hg Hrun]; [by rewrite py_range_length|].
  split; [done|]. split; [done|]. split.
  - intros default_rng seed Hseed. apply run_quiet; [done|].
    apply Forall_forall. intros [P R] (HP & _)%sweep_cells_elem.
    apply list_elem_of_singleton in HP as ->. right. by right.
  - intros a b g Hab.
    destruct (rng_choice_nonempty [b; a] (advance (advance g))) as (e & He & _);
      [done|].
    exists e. split; [|split; [|done]].
    + assert (filter (λ p, p ≠ a) [a; b] = [b]) as Hfa.
      { rewrite !filter_cons, filter_nil. repeat case_decide; congruence. }
      assert (filter (λ p, p ≠ b) [a; b] = [a]) as Hfb.
      { rewrite !filter_cons, filter_nil. repeat case_decide; congruence. }
      unfold choose_targets, for_in, bind.
      rewrite Hfa, rng_choice_singleton. unfold ret at 1.
      by rewrite Hfb, rng_choice_singleton.
    + unfold pick_eliminated_from_targets, Counter. simpl.
      rewrite decide_False by congruence. simpl.
      unfold bind. by rewrite He.
Qed.

Lemma two_player_round_witness :
  simulate_round (ex_ctx 2 1) (py_range 0 2) (world0 seq_rng)
  = (Ok tt, world0 seq_rng)
  ∧ run_complete_simulation (λ _, seq_rng) two_player_params 7 = Ok ([], [])
  ∧ ∃ eliminated,
      pick_eliminated_from_targets [1; 0] (advance (advance seq_rng))
      = (Ok (eliminated, 1, [1; 0]), advance (advance (advance seq_rng))).
Proof.
  destruct (two_player_round 1 (ex_ctx 2 1) (world0 seq_rng) eq_refl)
    as (_ & Hrun & Hempty & Hstep).
  - apply py_range_elem. lia.
  - split; [exact Hrun|]. split; [apply Hempty; lia|].
    destruct (Hstep 0 1 seq_rng) as (e & _ & Hp & _); [lia|].
    exists e. exact Hp.
Defined.

(** ** C2 *)




(** ** C8 *)

(** C8 as stated fails: the first match of this sweep has two players and
    emits nothing, so the match ids of the output start at 2. *)
Lemma match_ids_from_one_counterexample :
  ∃ vs rs,
    run_complete_simulation (λ _, seq_rng) skipping_params 42 = Ok (vs, rs)
    ∧ g_match <$> rs = [2]
    ∧ v_match <$> vs = [2; 2; 2].
Proof. eexists _, _. split; [by vm_compute|done]. Qed.

(** C8, amended. A run on a non-negative seed whose player counts are all
    at least 1 returns normally.  In a run that returns normally the matches are numbered 1, 2,
    ... in sweep order, the rounds of a match 1 to R and the passes of a
    round 1 to k without gaps; both tables list their rows match by match,
    round by round and pass by pass in that numbering, one result row and
    one vote row per voter for each pass, with k between 1 and P - 2 when P
    is at least 3 and k = 0 otherwise.  A match id therefore occurs in the
    result table exactly when its cell has P at least 3 and R at least 1:
    the ids that occur are increasing, and contiguous from 1 when every cell
    is such. *)
Theorem ids_follow_sweep default_rng params seed :
  (0 ≤ seed →
   Forall (λ P, 1 ≤ P) (P_values params) →
   ∃ vs rs, run_complete_simulation default_rng params seed = Ok (vs, rs))
  ∧ ∀ vs rs,
      run_complete_simulation default_rng params seed = Ok (vs, rs) →
      ∃ shape,
        Forall2 match_shape (sweep_cells params) shape
        ∧ vote_ids <$> vs = sweep_block id shape
        ∧ result_ids <$> rs = sweep_block (λ _, 1%nat) shape
        ∧ ∀ j : nat,
            Z.of_nat j + 1 ∈ (g_match <$> rs) ↔
            ∃ P R, sweep_cells params !! j = Some (P, R) ∧ 3 ≤ P ∧ 1 ≤ R.
Proof.
  split.
  - intros Hseed HP.
    rewrite run_complete_simulation_seeded, sweep_cells_loop by done.
    destruct (for_in_match_total (sweep_cells params) 0
                (world0 (default_rng seed))) as (r & w' & ->); [|by eexists _, _].
    apply Forall_forall. intros [P R] (Hin & _)%sweep_cells_elem.
    rewrite Forall_forall in HP. by apply HP.
  - intros vs rs (r & w' & Hrun & -> & ->)%run_complete_simulation_Ok.
    rewrite sweep_cells_loop in Hrun.
    apply sweep_blocks in Hrun as (_ & shape & Hall & Hv & Hr).
    exists shape. split; [done|]. split; [done|]. split; [done|].
    intros j. rewrite <- (sweep_block_match_ids _ _ j Hall), <- Hr.
    rewrite list_elem_of_fmap. split.
    + intros (row & Hm & Hrow). exists (g_round row), (g_step row).
      apply list_elem_of_fmap. exists row. split; [|done].
      unfold result_ids. by rewrite <- Hm.
    + intros (r0 & s0 & (row & Hids & Hrow)%list_elem_of_fmap).
      exists row. split; [|done]. by injection Hids as -> _ _.
Qed.

Lemma ids_follow_sweep_witness :
  ∃ vs rs,
    run_complete_simulation (λ _, seq_rng) ex_params 42 = Ok (vs, rs)
    ∧ ∃ shape,
        Forall2 match_shape (sweep_cells ex_params) shape
        ∧ result_ids <$> rs = sweep_block (λ _, 1%nat) shape.
Proof.
  destruct (ids_follow_sweep (λ _, seq_rng) ex_params 42) as [Htotal Hshape].
  destruct Htotal as (vs & rs & Hrun); [lia| |].
  { repeat constructor; simpl; lia. }
  exists vs, rs. split; [done|].
  destruct (Hshape vs rs Hrun) as (shape & Hall & _ & Hr & _).
  exists shape. split; [exact Hall|exact Hr].
Defined.

(** * Further properties of the helpers *)

(** ** [Counter] counts *)

Lemma votes_for_cons p x targets :
  votes_for p (x :: targets)
  = (if decide (x = p) then 1 else 0) + votes_for p targets.
Proof.
  unfold votes_for. rewrite filter_cons.
  destruct (decide (x = p)); simpl; lia.
Qed.

Lemma votes_for_nonneg p targets : 0 ≤ votes_for p targets.
Proof. unfold votes_for. lia. Qed.

Lemma votes_for_positive p targets : 1 ≤ votes_for p targets ↔ p ∈ targets.
Proof.
  induction targets as [|x targets IH].
  - split; [by vm_compute|by intros ?%elem_of_nil].
  - rewrite votes_for_cons, elem_of_cons.
    pose proof (votes_for_nonneg p targets).
    destruct (decide (x = p)) as [->|Hne]; [split; [by left|lia]|].
    rewrite Z.add_0_l, IH. naive_solver.
Qed.

Lemma counter_get_add count x k :
  counter_get (counter_add count x) k
  = counter_get count k + (if decide (x = k) then 1 else 0).
Proof.
  induction count as [|[k' v] rest IH]; simpl.
  - destruct (decide (x = k)); lia.
  - destruct (decide (k' = x)) as [->|Hne]; simpl.
    + destruct (decide (x = k)); lia.
    + destruct (decide (k' = k)) as [->|Hk]; [|exact IH].
      rewrite decide_False by congruence. lia.
Qed.

Lemma counter_add_NoDup count x :
  NoDup count.*1 → NoDup (counter_add count x).*1.
Proof.
  induction count as [|[k v] rest IH]; simpl; intros Hnd.
  - apply NoDup_singleton.
  - destruct (decide (k = x)) as [->|Hne]; [done|]. simpl.
    apply NoDup_cons in Hnd as [Hk Hrest]. apply NoDup_cons. split; [|auto].
    rewrite counter_add_keys. naive_solver.
Qed.

Lemma counter_get_elem count k v :
  NoDup count.*1 → (k, v) ∈ count ↔ k ∈ count.*1 ∧ v = counter_get count k.
Proof.
  induction count as [|[k' v'] rest IH]; simpl; intros Hnd.
  - rewrite !elem_of_nil. naive_solver.
  - apply NoDup_cons in Hnd as [Hk Hrest].
    rewrite !elem_of_cons, (IH Hrest).
    destruct (decide (k' = k)) as [->|Hne]; [|naive_solver].
    split.
    + intros [Heq|[Hin _]]; [|done]. injection Heq as ->. split; [by left|done].
    + intros [_ ->]. by left.
Qed.

Lemma foldl_counter_get xs count k :
  counter_get (foldl counter_add count xs) k
  = counter_get count k + votes_for k xs.
Proof.
  revert count. induction xs as [|x xs IH]; intros count; simpl.
  - unfold votes_for. simpl. lia.
  - rewrite IH, counter_get_add, votes_for_cons. lia.
Qed.

Lemma foldl_counter_NoDup xs count :
  NoDup count.*1 → NoDup (foldl counter_add count xs).*1.
Proof.
  revert count. induction xs as [|x xs IH]; intros count Hnd; simpl; [done|].
  by apply IH, counter_add_NoDup.
Qed.

(** The entries of [Counter(xs)] are the distinct elements of [xs], each
    with its number of occurrences. *)
Lemma Counter_elem xs k v :
  (k, v) ∈ Counter xs ↔ k ∈ xs ∧ v = votes_for k xs.
Proof.
  unfold Counter.
  rewrite counter_get_elem by (apply foldl_counter_NoDup; constructor).
  fold (Counter xs). rewrite Counter_keys. unfold Counter.
  rewrite foldl_counter_get. simpl. by rewrite Z.add_0_l.
Qed.

Lemma filter_fst_NoDup (Q : Z * Z → Prop) `{∀ x, Decision (Q x)}
    (count : list (Z * Z)) :
  NoDup count.*1 → NoDup (filter Q count).*1.
Proof.
  intros Hnd. eapply sublist_NoDup; [exact Hnd|].
  apply fmap_sublist, sublist_filter.
Qed.

Lemma length_filter_split (Q : Z → Prop) `{∀ x, Decision (Q x)} (l : list Z) :
  (length (filter Q l) + length (filter (λ x, ¬ Q x) l) = length l)%nat.
Proof.
  induction l as [|x l IH]; [done|]. rewrite !filter_cons.
  destruct (decide (Q x)) as [HQ|HQ].
  - rewrite decide_False by tauto. simpl. lia.
  - rewrite decide_True by done. simpl. lia.
Qed.

Lemma votes_for_filter_ne k k' xs :
  k' ≠ k → votes_for k' (filter (λ x, ¬ x = k) xs) = votes_for k' xs.
Proof.
  intros Hne. induction xs as [|x xs IH]; [done|].
  rewrite filter_cons, (votes_for_cons k' x xs).
  destruct (decide (¬ x = k)) as [Hx|Hx].
  - rewrite votes_for_cons, IH. done.
  - rewrite IH, decide_False; [lia|]. intros ->. tauto.
Qed.

(** Distinct players that each got [v] votes got no more votes together
    than were cast. *)
Lemma votes_for_sum ks xs v :
  NoDup ks → (∀ k, k ∈ ks → votes_for k xs = v) →
  Z.of_nat (length ks) * v ≤ Z.of_nat (length xs).
Proof.
  intros Hnd. revert xs.
  induction Hnd as [|k ks Hk _ IH]; intros xs Hv; simpl; [lia|].
  pose proof (length_filter_split (λ x, x = k) xs) as Hsplit.
  assert (votes_for k xs = v) as Hkv by (apply Hv; left).
  unfold votes_for in Hkv.
  specialize (IH (filter (λ x, ¬ x = k) xs)).
  assert (Z.of_nat (length ks) * v
          ≤ Z.of_nat (length (filter (λ x, ¬ x = k) xs))) as Hrest.
  { apply IH. intros k' Hk'. rewrite votes_for_filter_ne; [apply Hv; by right|].
    intros ->. done. }
  lia.
Qed.

(** ** The plurality pick *)

(** X1. A successful pick returns as [max_votes] the number of votes of the
    eliminated player, no player has more, [most_voted] lists exactly the
    players with that many votes, each once, so [tie_size] times [max_votes]
    is at most the number of votes, and one draw is consumed. *)
Theorem plurality_pick targets g eliminated max_votes most_voted g' :
  pick_eliminated_from_targets targets g
    = (Ok (eliminated, max_votes, most_voted), g') →
  votes_for eliminated targets = max_votes
  ∧ (∀ p, votes_for p targets ≤ max_votes)
  ∧ (∀ p, p ∈ most_voted ↔ votes_for p targets = max_votes)
  ∧ NoDup most_voted
  ∧ Z.of_nat (length most_voted) * max_votes ≤ Z.of_nat (length targets)
  ∧ consumed g' = S (consumed g).
Proof.
  intros (Hmax & -> & He & _ & Hmv & _ & ->)%pick_eliminated_Ok.
  apply py_max_Ok in Hmax as [_ Hle]. rewrite Forall_forall in Hle.
  assert (∀ p, p ∈ most_voted_of targets max_votes
               ↔ votes_for p targets = max_votes) as Hmem.
  { intros p. unfold most_voted_of. rewrite list_elem_of_fmap. split.
    - intros ([k v] & -> & [Hv Hin]%list_elem_of_filter). simpl in *.
      apply Counter_elem in Hin as [_ Hk]. congruence.
    - intros Hp. exists (p, max_votes). split; [done|].
      apply list_elem_of_filter. split; [done|]. apply Counter_elem.
      split; [|done]. apply votes_for_positive. lia. }
  split; [by apply Hmem|]. split; [|split; [done|split; [|split; [|done]]]].
  - intros p. destruct (decide (p ∈ targets)) as [Hin|Hout].
    + apply Hle. apply list_elem_of_fmap. exists (p, votes_for p targets).
      split; [done|]. by apply Counter_elem.
    + destruct (decide (1 ≤ votes_for p targets)) as [Hp|Hp]; [|lia].
      by apply votes_for_positive in Hp.
  - apply filter_fst_NoDup, foldl_counter_NoDup. constructor.
  - apply votes_for_sum.
    + apply filter_fst_NoDup, foldl_counter_NoDup. constructor.
    + intros k. apply Hmem.
Qed.

Lemma plurality_pick_witness :
  ∃ eliminated most_voted g',
    pick_eliminated_from_targets [2; 0; 2; 1; 0] seq_rng
      = (Ok (eliminated, 2, most_voted), g')
    ∧ votes_for eliminated [2; 0; 2; 1; 0] = 2
    ∧ NoDup most_voted.
Proof.
  destruct (pick_eliminated_from_targets [2; 0; 2; 1; 0] seq_rng)
    as [[[[e mv] most]| |] g'] eqn:Hp; try (vm_compute in Hp; discriminate).
  pose proof (plurality_pick _ _ _ _ _ _ Hp) as (Hv & _ & _ & Hnd & _).
  assert (mv = 2) as -> by (vm_compute in Hp; congruence).
  exists e, most, g'. split; [reflexivity|]. split; [exact Hv|exact Hnd].
Defined.

(** The top count in a voting step: at least 1, at most the other voters. *)
Lemma pick_count_bounds players_alive g targets g1
    eliminated max_votes most_voted g2 :
  choose_targets players_alive g = (Ok targets, g1) →
  pick_eliminated_from_targets targets g1
    = (Ok (eliminated, max_votes, most_voted), g2) →
  1 ≤ max_votes ≤ Z.of_nat (length players_alive) - 1
  ∧ Z.of_nat (length most_voted) * max_votes
    ≤ Z.of_nat (length players_alive).
Proof.
  intros Hct Hpick.
  pose proof (choose_targets_length _ _ _ _ Hct) as Hlen.
  apply choose_targets_Ok in Hct.
  pose proof (pick_eliminated_Ok _ _ _ _ _ _ Hpick)
    as (Hmax & -> & He & Het & Hmv & _ & _).
  apply py_max_Ok in Hmax as [_ Hle]. rewrite Forall_forall in Hle.
  assert (Z.of_nat (length (most_voted_of targets max_votes)) * max_votes
          ≤ Z.of_nat (length targets)) as Hsum.
  { apply votes_for_sum.
    - apply filter_fst_NoDup, foldl_counter_NoDup. constructor.
    - intros k ([k' v] & -> & [Hv Hin]%list_elem_of_filter)%list_elem_of_fmap.
      simpl in *. apply Counter_elem in Hin as [_ Hk]. congruence. }
  assert (votes_for eliminated targets = max_votes) as Hev.
  { apply list_elem_of_fmap in He as ([k v] & -> & [Hv Hin]%list_elem_of_filter).
    simpl in *. apply Counter_elem in Hin as [_ Hk]. congruence. }
  split; [|lia]. split; [done|].
  assert (eliminated ∈ players_alive) as Hea.
  { apply list_elem_of_lookup_1 in Het as [j Hj].
    by destruct (Forall2_lookup_r _ _ _ _ _ Hct Hj) as (v & _ & Hv & _). }
  apply list_elem_of_lookup_1 in Hea as [j Hj].
  destruct (Forall2_lookup_l _ _ _ _ _ Hct Hj) as (t & Ht & _ & Hne).
  apply list_elem_of_lookup_2 in Ht.
  pose proof (length_filter_lt (λ x, x = eliminated) targets t Ht Hne).
  unfold votes_for in Hev. lia.
Qed.


(** X2. In a voting step nobody votes for themselves, so the top count is at
    most one less than the number of voters; it is at least 1, and the
    players tied at the top hold together no more votes than were cast. *)
Theorem top_count_bounds players_alive g targets g1
    eliminated max_votes most_voted g2 :
  choose_targets players_alive g = (Ok targets, g1) →
  pick_eliminated_from_targets targets g1
    = (Ok (eliminated, max_votes, most_voted), g2) →
  1 ≤ max_votes ≤ Z.of_nat (length players_alive) - 1
  ∧ Z.of_nat (length most_voted) * max_votes
    ≤ Z.of_nat (length players_alive).
Proof. apply pick_count_bounds. Qed.

Lemma top_count_bounds_witness :
  ∃ targets g1 eliminated max_votes most_voted g2,
    choose_targets [0; 1; 2; 3] (const_rng 0) = (Ok targets, g1)
    ∧ pick_eliminated_from_targets targets g1
      = (Ok (eliminated, max_votes, most_voted), g2)
    ∧ 1 ≤ max_votes ≤ 3.
Proof.
  destruct (choose_targets [0; 1; 2; 3] (const_rng 0))
    as [[targets| |] g1] eqn:Hct; try (vm_compute in Hct; discriminate).
  destruct (pick_eliminated_from_targets targets g1)
    as [[[[e mv] most]| |] g2] eqn:Hp;
    try (vm_compute in Hct; injection Hct as <- <-;
         vm_compute in Hp; discriminate).
  pose proof (top_count_bounds _ _ _ _ _ _ _ _ Hct Hp) as [Hb _].
  exists targets, g1, e, mv, most, g2.
  split; [reflexivity|]. split; [exact Hp|]. simpl in Hb. lia.
Defined.

(** ** Outcomes of the voting step and of a pass *)

Lemma choose_targets_draws players_alive g targets g' :
  choose_targets players_alive g = (Ok targets, g') →
  consumed g' = (consumed g + length players_alive)%nat ∧ draws g' = draws g.
Proof.
  intros Hrun.
  apply (for_in_Ok_inv
           (λ done _ s, consumed s = (consumed g + length done)%nat
                        ∧ draws s = draws g)) in Hrun; [done|split; [simpl; lia|done]|].
  intros done x rest b s0 b1 s1 _ [Hc Hd] Hb.
  apply bind_Ok in Hb as (t & s2 & Ht & [= <- <-]).
  apply rng_choice_Ok in Ht as [_ ->]. simpl.
  rewrite length_app, Hc. simpl. split; [lia|done].
Qed.

(** A voter equal to every player alive has no candidate: the voting loop
    raises at the first voter, before any draw. *)
Lemma choose_targets_lone players_alive v g :
  v ∈ players_alive → (∀ p, p ∈ players_alive → p = v) →
  choose_targets players_alive g = (Raise EmptyChoice, g).
Proof.
  intros Hv Hall. destruct players_alive as [|a rest]; [by apply elem_of_nil in Hv|].
  assert (filter (λ p, p ≠ a) (a :: rest) = []) as Hnil.
  { destruct (filter (λ p, p ≠ a) (a :: rest)) as [|p l] eqn:Hf; [done|].
    assert (p ∈ filter (λ p, p ≠ a) (a :: rest)) as [Hne Hp]%list_elem_of_filter
      by (rewrite Hf; left).
    exfalso. apply Hne. rewrite (Hall p Hp). symmetry. apply Hall. by left. }
  unfold choose_targets. simpl for_in. unfold bind.
  by rewrite Hnil, rng_choice_empty.
Qed.

(** Either every voter has someone else to vote for, or the players alive
    are all one and the same player. *)
Lemma voters_cases (players_alive : list Z) :
  (∀ v, v ∈ players_alive → ∃ p, p ∈ players_alive ∧ p ≠ v)
  ∨ (∃ v, v ∈ players_alive ∧ ∀ p, p ∈ players_alive → p = v).
Proof.
  destruct (decide (Forall (λ v, Exists (λ p, p ≠ v) players_alive)
                      players_alive)) as [Hall|Hnot].
  - left. intros v Hv. rewrite Forall_forall in Hall.
    apply Exists_exists. by apply Hall.
  - right. apply not_Forall_Exists in Hnot; [|apply _].
    apply Exists_exists in Hnot as (v & Hv & Hnone).
    exists v. split; [done|]. intros p Hp.
    destruct (decide (p = v)) as [|Hne]; [done|].
    exfalso. apply Hnone. apply Exists_exists. by exists p.
Qed.

(** X3. The voting step returns exactly when every voter has some other
    player to vote for: it then yields one target per voter and consumes one
    draw per voter.  When the players alive are all one and the same player
    it raises from the first choice, leaving the generator untouched. *)
Theorem choose_targets_outcome players_alive g :
  ((∀ v, v ∈ players_alive → ∃ p, p ∈ players_alive ∧ p ≠ v) →
   ∃ targets g',
     choose_targets players_alive g = (Ok targets, g')
     ∧ length targets = length players_alive
     ∧ consumed g' = (consumed g + length players_alive)%nat
     ∧ draws g' = draws g)
  ∧ ((∃ v, v ∈ players_alive ∧ ∀ p, p ∈ players_alive → p = v) →
     choose_targets players_alive g = (Raise EmptyChoice, g))
  ∧ ((∀ v, v ∈ players_alive → ∃ p, p ∈ players_alive ∧ p ≠ v)
     ∨ (∃ v, v ∈ players_alive ∧ ∀ p, p ∈ players_alive → p = v)).
Proof.
  split; [|split].
  - intros Hc.
    destruct (for_in_vote_total players_alive players_alive [] g Hc)
      as (targets & g' & Hrun).
    change (choose_targets players_alive g = (Ok targets, g')) in Hrun.
    exists targets, g'. split; [done|].
    split; [by eapply choose_targets_length|]. by eapply choose_targets_draws.
  - intros (v & Hv & Hall). by eapply choose_targets_lone.
  - apply voters_cases.
Qed.

Lemma choose_targets_outcome_witness :
  (∃ targets g',
     choose_targets [0; 1; 1; 2] seq_rng = (Ok targets, g')
     ∧ consumed g' = 4%nat)
  ∧ choose_targets [5; 5; 5] seq_rng = (Raise EmptyChoice, seq_rng).
Proof.
  split.
  - destruct (proj1 (choose_targets_outcome [0; 1; 1; 2] seq_rng))
      as (targets & g' & Hrun & _ & Hc & _).
    + intros v Hv. destruct (decide (v = 0)) as [->|Hne].
      * exists 1. split; [right; left|lia].
      * exists 0. split; [left|done].
    + by exists targets, g'.
  - apply (proj1 (proj2 (choose_targets_outcome [5; 5; 5] seq_rng))).
    exists 5. split; [left|]. intros p Hp.
    repeat (apply elem_of_cons in Hp as [->|Hp]; [done|]).
    by apply elem_of_nil in Hp.
Defined.

(** A pick that was made names a player that [remove] finds. *)
Lemma picked_is_removable players_alive g targets g1
    eliminated max_votes most_voted g2 :
  choose_targets players_alive g = (Ok targets, g1) →
  pick_eliminated_from_targets targets g1
    = (Ok (eliminated, max_votes, most_voted), g2) →
  is_Some (list_remove eliminated players_alive).
Proof.
  intros Hct%choose_targets_Ok (_ & _ & _ & Het & _)%pick_eliminated_Ok.
  apply list_remove_elem.
  apply list_elem_of_lookup_1 in Het as [j Hj].
  by destruct (Forall2_lookup_r _ _ _ _ _ Hct Hj) as (v & _ & Hv & _).
Qed.

(** X4. A pass that raises has added no row to either table.  It raises
    from [max] exactly on an empty alive list (the generator is then
    untouched), and otherwise from the first choice of a target, when the
    players alive are all one and the same player. *)
Theorem failed_pass_emits_nothing base_ctx st w e w' :
  round_body base_ctx st w = (Raise e, w') →
  votes w' = votes w
  ∧ game_results w' = game_results w
  ∧ ((e = EmptyMax ∧ st.1 = [] ∧ rng w' = rng w)
     ∨ (e = EmptyChoice ∧ st.1 ≠ []
        ∧ ∃ v, v ∈ st.1 ∧ ∀ p, p ∈ st.1 → p = v)).
Proof.
  unfold round_body, bind, with_rng, append_votes_rows, remove_or_raise,
    append_game_result_row, ret, raise. simpl.
  destruct (choose_targets st.1 (rng w)) as [[targets|e0|] g1] eqn:Hct; simpl.
  - destruct (pick_eliminated_from_targets targets g1)
      as [[[[el mv] most]|e1|] g2] eqn:Hp.
    + destruct (picked_is_removable _ _ _ _ _ _ _ _ Hct Hp) as [l' ->]. done.
    + intros [= <- <-]. simpl.
      destruct targets as [|t targets].
      * pose proof (choose_targets_length _ _ _ _ Hct) as Hlen.
        destruct st.1 as [|a l] eqn:Hst; [|done]. simpl. rewrite app_nil_r.
        vm_compute in Hp. injection Hp as <- <-.
        split; [done|]. split; [done|]. left.
        split; [done|]. split; [done|].
        unfold choose_targets in Hct. simpl in Hct. by injection Hct as <-.
      * destruct (pick_eliminated_total (t :: targets) g1) as (? & ? & ? & Hok);
          [done|]. congruence.
    + by apply pick_eliminated_fuel in Hp.
  - intros [= <- <-]. simpl. split; [done|]. split; [done|]. right.
    pose proof (choose_targets_Raise _ _ _ _ Hct) as ->. split; [done|].
    destruct (voters_cases st.1) as [Hc|Hlone].
    + destruct (for_in_vote_total st.1 st.1 [] (rng w) Hc) as (? & ? & Hok).
      change (for_in st.1 (vote_body st.1) []) with (choose_targets st.1) in Hok.
      congruence.
    + split; [|done]. destruct Hlone as (v & Hv & _). intros Hnil.
      rewrite Hnil in Hv. by apply elem_of_nil in Hv.
  - by apply choose_targets_fuel in Hct.
Qed.

Lemma failed_pass_emits_nothing_witness :
  ∃ w', round_body (ex_ctx 1 0) ([], 0) (world0 seq_rng) = (Raise EmptyMax, w')
        ∧ votes w' = [] ∧ game_results w' = [].
Proof.
  destruct (round_body (ex_ctx 1 0) ([], 0) (world0 seq_rng))
    as [[st'|e|] w'] eqn:Hb; try (vm_compute in Hb; discriminate).
  pose proof (failed_pass_emits_nothing _ _ _ _ _ Hb) as (Hv & Hr & _).
  assert (e = EmptyMax) as -> by (vm_compute in Hb; congruence).
  exists w'. split; [reflexivity|]. split; [exact Hv|exact Hr].
Defined.

(** ** Rounds and runs on arbitrary inputs *)

(** The [while] condition holds only with an impostor and a civilian alive,
    so every voter has someone else to vote for. *)
Lemma round_guard_two_alive base_ctx players_alive :
  round_guard base_ctx players_alive = true →
  ∀ v, v ∈ players_alive → ∃ p, p ∈ players_alive ∧ p ≠ v.
Proof.
  unfold round_guard, impostors_win.
  rewrite andb_true_iff, negb_true_iff, bool_decide_eq_true, bool_decide_eq_false.
  intros [Himp Hciv] v Hv.
  apply size_pos_elem_of in Himp as [a Ha].
  destruct (size_pos_elem_of
              ((list_to_set players_alive : gset Z) ∖ impostors base_ctx))
    as [b Hb]; [lia|].
  apply elem_of_intersection in Ha as [Ha Hai].
  apply elem_of_difference in Hb as [Hb Hbi].
  apply elem_of_list_to_set in Ha, Hb.
  destruct (decide (v = a)) as [->|Hne].
  - exists b. split; [done|]. by intros ->.
  - by exists a.
Qed.

(** A pass entered with the [while] condition true returns. *)
Lemma guarded_pass_returns base_ctx st w :
  round_guard base_ctx st.1 = true →
  ∃ st' w', round_body base_ctx st w = (Ok st', w').
Proof.
  intros Hg.
  pose proof (round_guard_two_alive _ _ Hg) as Hc.
  pose proof (round_guard_nonempty _ _ Hg) as Hne.
  destruct (for_in_vote_total st.1 st.1 [] (rng w) Hc) as (targets & g1 & Hct).
  change (choose_targets st.1 (rng w) = (Ok targets, g1)) in Hct.
  pose proof (choose_targets_length _ _ _ _ Hct) as Hlen.
  destruct (pick_eliminated_total targets g1) as (e & mv & most & Hpick).
  { destruct targets; [|done]. destruct st.1; [done|simpl in Hlen; lia]. }
  destruct (picked_is_removable _ _ _ _ _ _ _ _ Hct Hpick) as [l' Hl'].
  unfold round_body, bind, with_rng, append_votes_rows, remove_or_raise,
    append_game_result_row, ret. simpl.
  rewrite Hct. simpl. rewrite Hpick, Hl'. by eexists _, _.
Qed.

Lemma guarded_loop_returns base_ctx fuel st w :
  (length st.1 ≤ fuel)%nat →
  ∃ w', round_loop fuel base_ctx st w = (Ok tt, w').
Proof.
  revert st w. induction fuel as [|fuel IH]; intros st w Hlen; simpl;
    destruct (round_guard base_ctx st.1) eqn:Hg; try by eexists.
  - apply round_guard_nonempty in Hg. destruct st.1; [done|simpl in Hlen; lia].
  - destruct (guarded_pass_returns _ _ w Hg) as (st' & w' & Hb).
    unfold bind. rewrite Hb. apply IH.
    destruct st as [alive step].
    apply round_body_Ok in Hb as (_ & _ & e & _ & _ & _ & _ & Hrm & _).
    apply list_remove_Some in Hrm as (_ & Hl & _). simpl in *. lia.
Qed.

(** X5. Whatever the context, the impostor set, the player list (duplicates
    included) and the store, a round returns: it neither raises nor loops.
    After [n] passes exactly [n] players are gone and the step counter is
    [n], so there are at most [len(players)] passes. *)
Theorem round_always_returns base_ctx players w :
  (∃ w', simulate_round base_ctx players w = (Ok tt, w'))
  ∧ ∀ n st w1,
      round_steps base_ctx ((players, 0), w) n (st, w1) →
      length players = (length st.1 + n)%nat ∧ st.2 = Z.of_nat n.
Proof.
  split.
  - by apply (guarded_loop_returns base_ctx (length players) (players, 0) w).
  - intros n st w1 Hs.
    by pose proof (round_steps_blocks _ _ _ _ _ _ Hs) as (-> & -> & _).
Qed.

Lemma round_always_returns_witness :
  ∃ st w1,
    round_steps (ex_ctx 5 9) (([0; 9; 9; 3; 0], 0), world0 seq_rng) 1 (st, w1)
    ∧ length st.1 = 4%nat.
Proof.
  destruct (round_body (ex_ctx 5 9) ([0; 9; 9; 3; 0], 0) (world0 seq_rng))
    as [[st'| |] w'] eqn:Hb; try (vm_compute in Hb; discriminate).
  assert (round_steps (ex_ctx 5 9) (([0; 9; 9; 3; 0], 0), world0 seq_rng) 1
            (st', w')) as Hs.
  { eapply steps_S; [apply steps_O|by vm_compute|exact Hb]. }
  exists st', w'. split; [exact Hs|].
  destruct (proj2 (round_always_returns (ex_ctx 5 9) [0; 9; 9; 3; 0]
                     (world0 seq_rng)) _ _ _ Hs) as [Hlen _].
  simpl in Hlen. lia.
Defined.

(** ** When the whole run raises *)

Lemma simulate_match_returns P R match_id w :
  ¬ empty_pool_cell (P, R) →
  ∃ w', simulate_match P R match_id w = (Ok tt, w').
Proof.
  intros Hc. unfold empty_pool_cell in Hc. simpl in Hc.
  destruct (decide (1 ≤ P)) as [HP|HP].
  - by apply simulate_match_total.
  - destruct (simulate_match_quiet P R match_id w) as [g Hg];
      [left; simpl; lia|]. by eexists.
Qed.

Lemma for_in_match_returns cells match_id w :
  Forall (λ cell, ¬ empty_pool_cell cell) cells →
  ∃ r w', for_in cells match_body match_id w = (Ok r, w').
Proof.
  intros Hc. revert match_id w.
  induction Hc as [|[P R] cells HP _ IH]; intros match_id w; simpl.
  - by eexists _, _.
  - destruct (simulate_match_returns P R (match_id + 1) w HP) as [w1 Hw1].
    unfold bind at 1, match_body at 1, bind. simpl. rewrite Hw1. apply IH.
Qed.

Lemma for_in_match_raises cells match_id w :
  Exists empty_pool_cell cells →
  ∃ w', for_in cells match_body match_id w = (Raise EmptyChoice, w').
Proof.
  intros Hc. revert match_id w.
  induction cells as [|[P R] cells IH]; intros match_id w; [by inversion Hc|].
  simpl. unfold bind at 1, match_body at 1, bind. simpl.
  destruct (decide (empty_pool_cell (P, R))) as [[HP HR]|Hgood].
  - simpl in *. rewrite simulate_match_empty_pool by done. by eexists.
  - destruct (simulate_match_returns P R (match_id + 1) w Hgood) as [w1 ->].
    apply IH. by inversion Hc.
Qed.

(** X6. On a negative seed the run raises from making the generator,
    before any match.  On a non-negative seed it raises exactly when some
    match of the sweep has a player count of 0 or less with a round count of
    at least 1: the raise is the one of the impostor draw on the empty pool,
    and no table is returned; for every other configuration the run returns
    its two tables. *)
Theorem run_raises_iff_empty_pool default_rng params seed :
  (seed < 0 →
   run_complete_simulation default_rng params seed = Raise NegativeSeed)
  ∧ (0 ≤ seed →
     Exists empty_pool_cell (sweep_cells params) →
     run_complete_simulation default_rng params seed = Raise EmptyChoice)
  ∧ (0 ≤ seed →
     ¬ Exists empty_pool_cell (sweep_cells params) →
     ∃ vs rs, run_complete_simulation default_rng params seed = Ok (vs, rs)).
Proof.
  split; [apply run_complete_simulation_negative|]. split.
  - intros Hseed Hbad.
    rewrite run_complete_simulation_seeded, sweep_cells_loop by done.
    by destruct (for_in_match_raises _ 0 (world0 (default_rng seed)) Hbad)
      as [w' ->].
  - intros Hseed Hgood.
    rewrite run_complete_simulation_seeded, sweep_cells_loop by done.
    destruct (for_in_match_returns (sweep_cells params) 0
                (world0 (default_rng seed))) as (r & w' & ->); [|by eexists _, _].
    apply Forall_forall. intros cell Hin Hbad. apply Hgood.
    apply Exists_exists. by exists cell.
Qed.

Lemma run_raises_iff_empty_pool_witness :
  run_complete_simulation (λ _, seq_rng)
    {| P_values := [4; 0]; R_values := [0; 2]; n_matches := 1 |} 7
  = Raise EmptyChoice
  ∧ run_complete_simulation (λ _, seq_rng)
      {| P_values := [4; 0]; R_values := [0; 2]; n_matches := 1 |} (-7)
    = Raise NegativeSeed
  ∧ ∃ vs rs,
      run_complete_simulation (λ _, seq_rng)
        {| P_values := [4; 0]; R_values := [0]; n_matches := 1 |} 7
      = Ok (vs, rs).
Proof.
  split; [|split].
  - apply (proj1 (proj2 (run_raises_iff_empty_pool _ _ _))); [lia|].
    apply Exists_exists. exists (0, 2). split; [by vm_compute; set_solver|].
    split; simpl; lia.
  - apply (proj1 (run_raises_iff_empty_pool _ _ _)). lia.
  - apply (proj2 (proj2 (run_raises_iff_empty_pool _ _ _))); [lia|].
    intros ([P R] & Hin & HP & HR)%Exists_exists.
    apply sweep_cells_elem in Hin as (_ & HRin & _). simpl in *.
    apply list_elem_of_singleton in HRin. lia.
Defined.

(** ** The course of a round with one impostor *)

(** Everything a pass of such a round does, in one place. *)
Lemma single_pass_facts base_ctx players i w0 n st w st' w' :
  impostors base_ctx = {[ i ]} → NoDup players → i ∈ players →
  round_steps base_ctx ((players, 0), w0) n (st, w) →
  round_guard base_ctx st.1 = true →
  round_body base_ctx st w = (Ok st', w') →
  ∃ (targets : list Z) (eliminated max_votes : Z) (most_voted : list Z),
    votes w' = votes w ++
      map (vote_row (update_ctx base_ctx (Z.of_nat n + 1))) (zip st.1 targets)
    ∧ game_results w' = game_results w ++
        [result_row (update_ctx base_ctx (Z.of_nat n + 1)) eliminated max_votes
           (Z.of_nat (length most_voted)) (impostors_win st'.1 {[ i ]})]
    ∧ Forall2 (λ voter target, target ∈ st.1 ∧ target ≠ voter) st.1 targets
    ∧ eliminated ∈ st.1
    ∧ 1 ≤ max_votes ≤ Z.of_nat (length st.1) - 1
    ∧ 1 ≤ Z.of_nat (length most_voted)
    ∧ Z.of_nat (length most_voted) * max_votes ≤ Z.of_nat (length st.1)
    ∧ (∀ y, y ∈ st.1 → y ∈ players)
    ∧ length players = (length st.1 + n)%nat
    ∧ (3 ≤ length st.1)%nat
    ∧ i ∈ st.1
    ∧ length st.1 = S (length st'.1)
    ∧ (i ∈ st'.1 ↔ eliminated ≠ i)
    ∧ (impostors_win st'.1 {[ i ]} = true
       ↔ eliminated ≠ i ∧ length st'.1 = 2%nat).
Proof.
  intros Himp Hnd Hin Hs Hg Hb.
  pose proof (single_steps_inv _ _ _ _ Himp Hnd _ _ _ Hs)
    as (Hnd1 & Hsub & Hlen & Hstep & _).
  apply (round_guard_single _ _ i Himp Hnd1) in Hg as [Hi H3].
  destruct st as [alive step]. simpl in *. subst step.
  apply round_body_Ok in Hb
    as (targets & g1 & e & mv & most & Hct & Hpick & Hrm & _ & Hv & Hr).
  pose proof (pick_count_bounds _ _ _ _ _ _ _ _ Hct Hpick) as [Hmv Hsum].
  pose proof (pick_eliminated_Ok _ _ _ _ _ _ Hpick) as (_ & _ & _ & Het & _ & Hmost & _).
  pose proof (choose_targets_Ok _ _ _ _ Hct) as Hall.
  apply list_remove_Some in Hrm as (He & Hl & _ & Hnd').
  destruct (Hnd' Hnd1) as [Hnd2 Hiff]. rewrite Himp in Hr.
  exists targets, e, mv, most.
  repeat (split; [first [done|lia]|]).
  assert (i ∈ st'.1 ↔ e ≠ i) as Hi'.
  { rewrite Hiff. split; [intros [_ H] ->; done|intros H; split; [done|congruence]]. }
  split; [done|].
  rewrite (impostors_win_single _ _ Hnd2), Hi'. split.
  - intros [[Hne Hle]|Hnil]; [split; [done|lia]|].
    rewrite Hnil in Hl. simpl in Hl. lia.
  - intros [Hne H2]. left. split; [done|lia].
Qed.

(** After [n] passes the result rows of the round are [n]; all but the last
    eliminated a civilian and left the round open; the last either
    eliminated the impostor or left it alive. *)
Lemma round_steps_outcome base_ctx players i w0 n st w :
  impostors base_ctx = {[ i ]} → NoDup players → i ∈ players →
  round_steps base_ctx ((players, 0), w0) n (st, w) →
  ∃ rows,
    game_results w = game_results w0 ++ rows
    ∧ length rows = n
    ∧ (rows = []
       ∨ ∃ earlier last,
           rows = earlier ++ [last]
           ∧ Forall (open_row i) earlier
           ∧ ((g_eliminated last = i
               ∧ g_eliminated_role last = "impostor"%string
               ∧ g_impostors_wins last = false ∧ i ∉ st.1)
              ∨ (g_eliminated last ≠ i
                 ∧ g_eliminated_role last = "civil"%string
                 ∧ i ∈ st.1
                 ∧ (g_impostors_wins last = true ↔ length st.1 = 2%nat)))).
Proof.
  intros Himp Hnd Hin. remember (st, w) as c eqn:Hc. intros Hs. revert st w Hc.
  induction Hs as [|n st1 w1 st2 w2 Hs IH Hg Hb]; intros st w [= <- <-].
  - exists []. rewrite app_nil_r. split; [done|]. split; [done|]. by left.
  - destruct (IH _ _ eq_refl) as (rows & Hrows & Hlen & Hshape).
    destruct (single_pass_facts _ _ _ _ _ _ _ _ _ Himp Hnd Hin Hs Hg Hb)
      as (targets & e & mv & most & _ & Hr & _ & _ & _ & _ & _ & _ & _ & H3
          & Hi1 & Hl & Hi2 & Hwin).
    eexists. split; [by rewrite Hr, Hrows, <- (assoc_L (++))|].
    split; [rewrite length_app; simpl; lia|]. right.
    eexists rows, _. split; [done|]. split.
    + destruct Hshape as [->|(earlier & last & -> & Hopen & Hlast)]; [constructor|].
      apply Forall_app. split; [done|]. constructor; [|constructor].
      destruct Hlast as [(_ & _ & _ & Hout)|(Hne & Hrole & _ & Hflag)]; [done|].
      split; [done|]. split; [done|].
      apply not_true_iff_false. rewrite Hflag. lia.
    + simpl. unfold role_of. rewrite Himp.
      destruct (decide (e = i)) as [->|Hne].
      * left. rewrite decide_True by set_solver.
        split; [done|]. split; [done|]. split; [|tauto].
        apply not_true_iff_false. rewrite Hwin. tauto.
      * right. rewrite decide_False by set_solver.
        split; [done|]. split; [done|]. split; [tauto|].
        rewrite Hwin. tauto.
Qed.

(** X7. A round on P >= 3 players with one impostor drawn from the pool
    emits between 1 and P - 2 result rows.  Every row but the last
    eliminates a civilian and has [impostors_wins] false.  The last row
    either eliminates the impostor, with the flag false, or eliminates a
    civilian with the flag true, and then the round had exactly P - 2
    passes (two players are left). *)
Theorem round_outcome P i base_ctx w0 w' :
  3 ≤ P →
  impostors base_ctx = {[ i ]} →
  i ∈ py_range 0 P →
  simulate_round base_ctx (py_range 0 P) w0 = (Ok tt, w') →
  ∃ earlier last,
    game_results w' = game_results w0 ++ earlier ++ [last]
    ∧ Z.of_nat (length earlier) + 1 ≤ P - 2
    ∧ Forall (open_row i) earlier
    ∧ ((g_eliminated last = i
        ∧ g_eliminated_role last = "impostor"%string
        ∧ g_impostors_wins last = false)
       ∨ (g_eliminated last ≠ i
          ∧ g_eliminated_role last = "civil"%string
          ∧ g_impostors_wins last = true
          ∧ Z.of_nat (length earlier) + 1 = P - 2)).
Proof.
  intros HP Himp Hin (n & st' & Hs & Hg)%round_loop_Ok.
  pose proof (py_range_NoDup 0 P) as Hnd.
  pose proof (single_steps_inv _ _ _ _ Himp Hnd _ _ _ Hs)
    as (Hnd1 & _ & Hlen & _ & Hleft).
  rewrite py_range_length in Hlen.
  destruct (round_steps_outcome _ _ _ _ _ _ _ Himp Hnd Hin Hs)
    as (rows & Hrows & Hn & [->|(earlier & last & -> & Hopen & Hlast)]).
  { simpl in Hn. subst n. apply round_steps_O_inv in Hs. injection Hs as -> _.
    exfalso. apply not_true_iff_false in Hg. apply Hg. simpl.
    apply (round_guard_single _ _ i Himp Hnd). rewrite py_range_length.
    split; [done|lia]. }
  rewrite length_app in Hn. simpl in Hn.
  exists earlier, last. split; [done|]. split; [lia|]. split; [done|].
  destruct Hlast as [(He & Hrole & Hflag & _)|(Hne & Hrole & Hi & Hflag)];
    [by left|right].
  assert (length st'.1 = 2%nat) as H2.
  { destruct (decide (3 ≤ length st'.1)%nat) as [H3|H3]; [|lia].
    exfalso. apply not_true_iff_false in Hg. apply Hg.
    by apply (round_guard_single _ _ i Himp Hnd1). }
  split; [done|]. split; [done|]. split; [by apply Hflag|lia].
Qed.

Lemma round_outcome_witness :
  ∃ w' earlier last,
    simulate_round (ex_ctx 4 0) (py_range 0 4) (world0 seq_rng) = (Ok tt, w')
    ∧ game_results w' = earlier ++ [last]
    ∧ Z.of_nat (length earlier) + 1 ≤ 2.
Proof.
  destruct (simulate_round (ex_ctx 4 0) (py_range 0 4) (world0 seq_rng))
    as [[[]| |] w'] eqn:Hrun; try (vm_compute in Hrun; discriminate).
  destruct (round_outcome 4 0 (ex_ctx 4 0) (world0 seq_rng) w')
    as (earlier & last & Hr & Hk & _); [lia|reflexivity| |exact Hrun|].
  - apply py_range_elem. lia.
  - exists w', earlier, last. split; [reflexivity|]. split; [exact Hr|exact Hk].
Defined.

(** X8. In any round, after [n] passes the vote table has grown by
    [n * len(players) - n * (n - 1) / 2] rows and the result table by [n]
    rows: pass [j] (from 0) has one vote per player still alive,
    [len(players) - j] of them, and one elimination. *)
Theorem round_table_sizes base_ctx players w0 n st w :
  round_steps base_ctx ((players, 0), w0) n (st, w) →
  2 * Z.of_nat (length (votes w))
  = 2 * Z.of_nat (length (votes w0))
    + Z.of_nat n * (2 * Z.of_nat (length players) - Z.of_nat n + 1)
  ∧ length (game_results w) = (length (game_results w0) + n)%nat.
Proof.
  remember (st, w) as c eqn:Hc. intros Hs. revert st w Hc.
  induction Hs as [|n st1 w1 st2 w2 Hs IH Hg Hb]; intros st w [= <- <-].
  - simpl. split; lia.
  - destruct (IH _ _ eq_refl) as [Hv Hr].
    pose proof (round_steps_blocks _ _ _ _ _ _ Hs) as (_ & Hlen & _).
    destruct st1 as [alive step]. simpl in *.
    apply round_body_Ok in Hb
      as (targets & g1 & e & mv & most & Hct & _ & _ & _ & Hv2 & Hr2).
    apply choose_targets_length in Hct.
    rewrite Hv2, Hr2, !length_app, length_map, length_zip, Hct, Nat.min_id.
    simpl. split; [nia|lia].
Qed.

Lemma round_table_sizes_witness :
  ∃ st w,
    round_steps (ex_ctx 4 0) ((py_range 0 4, 0), world0 seq_rng) 1 (st, w)
    ∧ length (votes w) = 4%nat ∧ length (game_results w) = 1%nat.
Proof.
  destruct (round_body (ex_ctx 4 0) (py_range 0 4, 0) (world0 seq_rng))
    as [[st'| |] w'] eqn:Hb; try (vm_compute in Hb; discriminate).
  assert (round_steps (ex_ctx 4 0) ((py_range 0 4, 0), world0 seq_rng) 1
            (st', w')) as Hs.
  { eapply steps_S; [apply steps_O|by vm_compute|exact Hb]. }
  destruct (round_table_sizes _ _ _ _ _ _ Hs) as [Hv Hr].
  exists st', w'. split; [exact Hs|]. rewrite py_range_length in Hv.
  simpl in Hv, Hr. split; [lia|exact Hr].
Defined.

(** ** Where the rows of a run come from *)

Section RowProvenance.

Variables (cells : list (Z * Z)).
Variables (Qv : VoteRow → Prop) (Qr : ResultRow → Prop).

(** The rows added by any pass of any round of any match of the sweep
    satisfy [Qv] and [Qr]. *)
Hypothesis pass_rows : ∀ (j : nat) P R r i w0 n st w st' w',
  cells !! j = Some (P, R) →
  1 ≤ r ≤ R →
  i ∈ py_range 0 P →
  round_steps (round_ctx P R (Z.of_nat j + 1) r i)
    ((py_range 0 P, 0), w0) n (st, w) →
  round_guard (round_ctx P R (Z.of_nat j + 1) r i) st.1 = true →
  round_body (round_ctx P R (Z.of_nat j + 1) r i) st w = (Ok st', w') →
  Forall Qv (drop (length (votes w)) (votes w'))
  ∧ Forall Qr (drop (length (game_results w)) (game_results w')).

Lemma provenance_round (j : nat) P R r i w0 n st w :
  cells !! j = Some (P, R) → 1 ≤ r ≤ R → i ∈ py_range 0 P →
  round_steps (round_ctx P R (Z.of_nat j + 1) r i)
    ((py_range 0 P, 0), w0) n (st, w) →
  Forall Qv (votes w0) ∧ Forall Qr (game_results w0) →
  Forall Qv (votes w) ∧ Forall Qr (game_results w).
Proof.
  intros Hj Hr Hi Hs H0. remember (st, w) as c eqn:Hc. revert st w Hc.
  induction Hs as [|n st1 w1 st2 w2 Hs IH Hg Hb]; intros st w [= <- <-]; [done|].
  destruct (IH _ _ eq_refl) as [Hv1 Hr1].
  destruct (pass_rows _ _ _ _ _ _ _ _ _ _ _ Hj Hr Hi Hs Hg Hb) as [Hv2 Hr2].
  destruct st1 as [alive step].
  apply round_body_Ok in Hb as (? & ? & ? & ? & ? & _ & _ & _ & _ & Hv & Hres).
  rewrite Hv in Hv2 |- *. rewrite Hres in Hr2 |- *.
  rewrite drop_app_length in Hv2. rewrite drop_app_length in Hr2.
  split; by apply Forall_app.
Qed.

Lemma provenance_match (j : nat) P R w0 w' :
  cells !! j = Some (P, R) →
  simulate_match P R (Z.of_nat j + 1) w0 = (Ok tt, w') →
  Forall Qv (votes w0) ∧ Forall Qr (game_results w0) →
  Forall Qv (votes w') ∧ Forall Qr (game_results w').
Proof.
  intros Hj Hrun H0.
  apply (for_in_Ok_inv
           (λ _ _ w, Forall Qv (votes w) ∧ Forall Qr (game_results w)))
    in Hrun; [done|done|].
  intros done r rest [] s0 [] s1 Hxs Hs0
    (i & s2 & (g & [Hi _]%rng_choice_Ok & ->)%with_rng_Ok & Hround)%bind_Ok.
  assert (r ∈ py_range 1 (R + 1)) as Hr%py_range_elem
    by (rewrite Hxs; apply elem_of_app; right; left).
  apply round_loop_Ok in Hround as (n & st' & Hs & _).
  eapply (provenance_round j P R r i); [exact Hj|lia|done|exact Hs|done].
Qed.

Lemma provenance_sweep g r w' :
  for_in cells match_body 0 (world0 g) = (Ok r, w') →
  Forall Qv (votes w') ∧ Forall Qr (game_results w').
Proof.
  intros Hrun.
  apply (for_in_Ok_inv
           (λ done m w, m = Z.of_nat (length done)
                        ∧ Forall Qv (votes w) ∧ Forall Qr (game_results w)))
    in Hrun; [tauto|by repeat split|].
  intros done [P R] rest m s0 m1 s1 Hxs (-> & Hs0)
    ([] & s2 & Hm & [= <- <-])%bind_Ok.
  split; [rewrite length_app; simpl; lia|].
  apply (provenance_match (length done) P R s0 s2); [|done|done].
  rewrite Hxs. by apply list_lookup_middle.
Qed.

End RowProvenance.

(** X9. Every row of the two tables a run returns is well formed.  A vote
    row of match m carries the P and R of the m-th cell of the sweep, a
    round in 1..R, a step in 1..P-2, and a voter and a target in 0..P-1, and
    when the voter's role is impostor the target's role is civil.  A
    result row likewise, with the eliminated player in 0..P-1, max_votes
    between 1 and P - step (the voters other than the winner), tie_size at
    least 1 with tie_size * max_votes at most the P - step + 1 votes cast;
    a row that eliminates the impostor has impostors_wins false, and a row
    with impostors_wins true is the step P - 2. *)
Theorem run_rows_valid default_rng params seed vs rs :
  run_complete_simulation default_rng params seed = Ok (vs, rs) →
  Forall (valid_vote_row (sweep_cells params)) vs
  ∧ Forall (valid_result_row (sweep_cells params)) rs.
Proof.
  intros (r & w' & Hrun & -> & ->)%run_complete_simulation_Ok.
  rewrite sweep_cells_loop in Hrun.
  apply (provenance_sweep (sweep_cells params)) with (g := default_rng seed) (r := r).
  2: exact Hrun.
  clear. intros j P R r i w0 n st w st' w' Hj Hr Hi Hs Hg Hb.
  destruct (single_pass_facts (round_ctx P R (Z.of_nat j + 1) r i)
              _ i _ _ _ _ _ _ eq_refl (py_range_NoDup 0 P) Hi Hs Hg Hb)
    as (targets & e & mv & most & Hv & Hres & Hall & He & Hmv & Htie & Hsum
        & Hsub & Hlen & H3 & Hi1 & Hl & Hi2 & Hwin).
  rewrite py_range_length in Hlen.
  assert (0 ≤ P) as HP by (apply py_range_elem in Hi; lia).
  assert (∀ y, y ∈ st.1 → 0 ≤ y < P) as Hrange
    by (intros y Hy%Hsub%py_range_elem; lia).
  rewrite Hv, Hres, !drop_app_length. split.
  - apply Forall_fmap, Forall_forall. intros [v t] Hvt.
    apply list_elem_of_lookup_1 in Hvt as [k Hk].
    apply lookup_zip_with_Some in Hk as (v' & t' & [= <- <-] & Hkv & Hkt).
    destruct (Forall2_lookup_lr _ _ _ _ _ _ Hall Hkv Hkt) as [Ht Hne].
    apply list_elem_of_lookup_2 in Hkv.
    unfold valid_vote_row. simpl.
    replace (Z.to_nat (Z.of_nat j + 1 - 1)) with j by lia.
    repeat (split; [first [done|lia|by apply Hrange]|]).
    unfold role_of. destruct (decide (v ∈ ({[ i ]} : gset Z))) as [Hvi|]; [|done].
    intros _. rewrite decide_False; [done|].
    apply elem_of_singleton in Hvi. rewrite elem_of_singleton. congruence.
  - constructor; [|constructor]. unfold valid_result_row. simpl.
    replace (Z.to_nat (Z.of_nat j + 1 - 1)) with j by lia.
    repeat (split; [first [done|lia|by apply Hrange]|]). split.
    + unfold role_of. destruct (decide (e ∈ ({[ i ]} : gset Z))) as [Hei|]; [|done].
      intros _. apply not_true_iff_false. rewrite Hwin.
      apply elem_of_singleton in Hei. tauto.
    + intros [_ H2]%Hwin. lia.
Qed.

Lemma run_rows_valid_witness :
  ∃ vs rs,
    run_complete_simulation (λ _, seq_rng) ex_params 42 = Ok (vs, rs)
    ∧ rs ≠ []
    ∧ Forall (valid_result_row (sweep_cells ex_params)) rs.
Proof.
  destruct (run_complete_simulation (λ _, seq_rng) ex_params 42)
    as [[vs rs]| |] eqn:Hrun; try (vm_compute in Hrun; discriminate).
  exists vs, rs. split; [reflexivity|]. split.
  - intros ->. vm_compute in Hrun. discriminate.
  - exact (proj2 (run_rows_valid _ _ _ _ _ Hrun)).
Defined.

(** ** How many draws a match consumes *)

Lemma round_steps_consumed base_ctx players w0 n st w :
  round_steps base_ctx ((players, 0), w0) n (st, w) →
  (consumed (rng w) + length (votes w0) + length (game_results w0)
   = consumed (rng w0) + length (votes w) + length (game_results w))%nat
  ∧ draws (rng w) = draws (rng w0).
Proof.
  remember (st, w) as c eqn:Hc. intros Hs. revert st w Hc.
  induction Hs as [|n st1 w1 st2 w2 Hs IH Hg Hb]; intros st w [= <- <-].
  - split; [lia|done].
  - destruct (IH _ _ eq_refl) as [Hc Hd]. destruct st1 as [alive step].
    apply round_body_Ok in Hb
      as (targets & g1 & e & mv & most & Hct & Hpick & _ & _ & Hv & Hr).
    pose proof (choose_targets_length _ _ _ _ Hct) as Hlen.
    apply choose_targets_draws in Hct as [Hc1 Hd1].
    apply pick_eliminated_Ok in Hpick as (_ & _ & _ & _ & _ & _ & Hg2).
    rewrite Hg2, Hv, Hr, !length_app, length_map, length_zip, Hlen, Nat.min_id.
    simpl in *. split; [lia|congruence].
Qed.

(** X10. A match that returns has called the generator once per round (the
    impostor draw), once per vote row and once per result row it added, and
    nowhere else: the generator has moved on by exactly that many draws, on
    the same sequence. *)
Theorem match_draws P R match_id w w' :
  simulate_match P R match_id w = (Ok tt, w') →
  (consumed (rng w') + length (votes w) + length (game_results w)
   = consumed (rng w) + Z.to_nat R
     + length (votes w') + length (game_results w'))%nat
  ∧ draws (rng w') = draws (rng w).
Proof.
  intros Hrun.
  apply (for_in_Ok_inv
           (λ done _ s,
              (consumed (rng s) + length (votes w) + length (game_results w)
               = consumed (rng w) + length done
                 + length (votes s) + length (game_results s))%nat
              ∧ draws (rng s) = draws (rng w))) in Hrun.
  - by rewrite py_range_length, Z.add_simpl_r in Hrun.
  - split; [simpl; lia|done].
  - intros done r rest [] s0 [] s1 _ [Hc Hd]
      (i & s2 & (g & [_ ->]%rng_choice_Ok & ->)%with_rng_Ok & Hround)%bind_Ok.
    apply round_loop_Ok in Hround as (n & st' & Hs & _).
    apply round_steps_consumed in Hs as [Hc' Hd']. simpl in *.
    rewrite length_app. simpl. split; [lia|congruence].
Qed.

Lemma match_draws_witness :
  ∃ w', simulate_match 4 2 1 (world0 seq_rng) = (Ok tt, w')
        ∧ (consumed (rng w')
           = 2 + length (votes w') + length (game_results w'))%nat.
Proof.
  destruct (simulate_match 4 2 1 (world0 seq_rng)) as [[[]| |] w'] eqn:Hrun;
    try (vm_compute in Hrun; discriminate).
  exists w'. split; [reflexivity|].
  destruct (match_draws _ _ _ _ _ Hrun) as [Hc _]. simpl in Hc. lia.
Defined.

(** ** The tables only grow *)

Lemma extends_refl w : extends w w.
Proof. by split. Qed.

Lemma extends_trans w1 w2 w3 : extends w1 w2 → extends w2 w3 → extends w1 w3.
Proof. intros [? ?] [? ?]. split; by etrans. Qed.

Lemma grows_ret {A} (a : A) : grows (ret a).
Proof. intros w. apply extends_refl. Qed.

Lemma grows_bind {A B} (m : M World A) (k : A → M World B) :
  grows m → (∀ a, grows (k a)) → grows (bind m k).
Proof.
  intros Hm Hk w. unfold bind. specialize (Hm w).
  destruct (m w) as [[a| |] w1]; simpl in *; [|done..].
  eapply extends_trans; [exact Hm|apply Hk].
Qed.

Lemma grows_for_in {A B} (body : A → B → M World B) xs acc :
  (∀ x b, grows (body x b)) → grows (for_in xs body acc).
Proof.
  intros Hb. revert acc. induction xs as [|x xs IH]; intros acc; simpl.
  - apply grows_ret.
  - apply grows_bind; [apply Hb|apply IH].
Qed.

Lemma grows_with_rng {A} (m : M Generator A) : grows (with_rng m).
Proof. intros w. unfold with_rng. destruct (m (rng w)). by split. Qed.

Lemma grows_round_body base_ctx st : grows (round_body base_ctx st).
Proof.
  unfold round_body.
  apply grows_bind; [apply grows_with_rng|]. intros targets.
  apply grows_bind; [intros w; split; simpl; [by apply prefix_app_r|done]|].
  intros _. apply grows_bind; [apply grows_with_rng|]. intros [[e mv] most].
  apply grows_bind.
  { unfold remove_or_raise. destruct (list_remove _ _); intros w; by split. }
  intros alive'. apply grows_bind; [|intros _; apply grows_ret].
  intros w. split; simpl; [done|by apply prefix_app_r].
Qed.

Lemma grows_round_loop fuel base_ctx st : grows (round_loop fuel base_ctx st).
Proof.
  revert st. induction fuel as [|fuel IH]; intros st; simpl;
    destruct (round_guard base_ctx st.1); try apply grows_ret.
  - intros w. apply extends_refl.
  - apply grows_bind; [apply grows_round_body|apply IH].
Qed.

Lemma grows_simulate_match P R match_id : grows (simulate_match P R match_id).
Proof.
  apply grows_for_in. intros round_id [].
  apply grows_bind; [apply grows_with_rng|]. intros imp. apply grows_round_loop.
Qed.

(** X11. The two tables are append-only: whatever a pass, a round, a match
    or the whole sweep does to the store, and however it ends (a raise
    included), the rows that were in the tables are still there, unchanged
    and in place, with any new rows after them. *)
Theorem tables_append_only :
  (∀ base_ctx st, grows (round_body base_ctx st))
  ∧ (∀ base_ctx players, grows (simulate_round base_ctx players))
  ∧ (∀ P R match_id, grows (simulate_match P R match_id))
  ∧ (∀ params, grows (sweep params)).
Proof.
  split; [apply grows_round_body|].
  split; [intros; apply grows_round_loop|].
  split; [apply grows_simulate_match|].
  intros params. repeat (apply grows_for_in; intros ? ?).
  apply grows_bind; [apply grows_simulate_match|]. intros _. apply grows_ret.
Qed.

(** ** When a round goes on *)

(** X12. With one impostor and distinct players, the impostors win exactly
    when the impostor is alive with at most one other player, or nobody is
    alive; and the round loop makes another pass exactly when the impostor
    is alive among at least three players. *)
Theorem round_continues_iff base_ctx players_alive i :
  impostors base_ctx = {[ i ]} →
  NoDup players_alive →
  (impostors_win players_alive (impostors base_ctx) = true
   ↔ (i ∈ players_alive ∧ (length players_alive ≤ 2)%nat) ∨ players_alive = [])
  ∧ (round_guard base_ctx players_alive = true
     ↔ i ∈ players_alive ∧ (3 ≤ length players_alive)%nat).
Proof.
  intros Himp Hnd. split.
  - rewrite Himp. by apply impostors_win_single.
  - by apply round_guard_single.
Qed.

Lemma round_continues_iff_witness :
  round_guard (ex_ctx 5 2) [4; 2; 0] = true
  ∧ round_guard (ex_ctx 5 2) [4; 2] = false.
Proof.
  split.
  - apply (proj2 (round_continues_iff (ex_ctx 5 2) [4; 2; 0] 2 eq_refl
                    ltac:(repeat constructor; set_solver))).
    split; [set_solver|simpl; lia].
  - apply not_true_iff_false.
    rewrite (proj2 (round_continues_iff (ex_ctx 5 2) [4; 2] 2 eq_refl
                      ltac:(repeat constructor; set_solver))).
    simpl. lia.
Defined.

